(** * pynewood_derby: the heat-scheduling engine

    A shallow embedding of the schedulers of [heats_perfect.py],
    [heats_runoff.py] and of the two fairness passes of [race_utils.py],
    with the properties of the scheduling specification proved about them.

    Conventions of the embedding.
    - A pandas DataFrame with the columns Heat, Car, Lane is a list of rows
      in index order; the index of a row is its position.
    - A Python [int] is a [Z], a [str] a [string], a [set] a [gset] and a
      [dict] a [gmap].
    - Every random draw ([secrets.randbelow], [random.sample],
      [random.choice]) reads the next cell of an oracle tape, and so does the
      iteration order of a Python set, which the language leaves open.
      The theorems hold for every tape.
    - A Python [float] is a value of an interface of float operations; the
      rounding of binary64 is not fixed, and the theorems hold for every
      arithmetic in which [<] is a strict order, as it is on binary64. *)

From Stdlib Require Import ZArith QArith Qcanon.
From stdpp Require Import gmap strings list sorting.

Close Scope Qc_scope.
Close Scope Q_scope.
Open Scope string_scope.
Open Scope list_scope.
Open Scope nat_scope.

(** ** The heat table *)

Record row := Row { Heat : Z; Car : string; Lane : string }.

#[global] Instance row_eq_dec : EqDecision row.
Proof. solve_decision. Defined.

Abbreviation heat_table := (list row).

(** [rows_where key k df] is the selection [df[df[key] == k]]. *)
Definition rows_where {K} `{EqDecision K} (key : row → K) (k : K)
    (df : heat_table) : heat_table :=
  filter (λ r, key r = k) df.

(** [groupby_size key df] is [df.groupby(key).size()]: the Series that maps
    every key value present in the table to the number of its rows. *)
Definition groupby_size {K} `{Countable K} (key : row → K)
    (df : heat_table) : gmap K nat :=
  foldr (λ r m, <[key r := S (default 0%nat (m !! key r))]> m) ∅ df.

(** [any_size P s] is [s.<cmp>.any()] on a Series of group sizes. *)
Definition any_size {K} `{Countable K} (P : nat → Prop) `{∀ n, Decision (P n)}
    (s : gmap K nat) : bool :=
  bool_decide (map_Exists (λ _ n, P n) s).

(** [unique l] is [Series.unique()]: the distinct values in order of first
    appearance. *)
Fixpoint unique {A} `{EqDecision A} (l : list A) : list A :=
  match l with
  | [] => []
  | x :: l => x :: filter (λ y, y ≠ x) (unique l)
  end.

(** [slice_to k l] is the Python slice [l[:k]] for an integer [k]. *)
Definition slice_to {A} (k : Z) (l : list A) : list A :=
  if bool_decide (0 ≤ k)%Z then take (Z.to_nat k) l
  else take (Z.to_nat (Z.of_nat (length l) + k)) l.

(** [indexed df] pairs every row with its index, as [df.iterrows()]. *)
Definition indexed (df : heat_table) : list (nat * row) := imap pair df.

(** ** Exceptions, the oracle tape and the monad of randomized code *)

Inductive exn := ValueError | IndexError | KeyError | ZeroDivisionError.

(** A computation returns, raises, or is cut off by the fuel that bounds the
    [while] loops of the embedding. *)
Inductive outcome (A : Type) :=
  | Done (a : A)
  | Raise (e : exn)
  | OutOfFuel.
Arguments Done {A} a.
Arguments Raise {A} e.
Arguments OutOfFuel {A}.

#[global] Instance outcome_ret : MRet outcome := λ A a, Done a.
#[global] Instance outcome_bind : MBind outcome := λ A B f m,
  match m with
  | Done a => f a
  | Raise e => Raise e
  | OutOfFuel => OutOfFuel
  end.

Record rng := Rng { tape : nat → nat; pos : nat }.

Definition M (A : Type) : Type := rng → outcome (A * rng).

#[global] Instance M_ret : MRet M := λ A a g, Done (a, g).
#[global] Instance M_bind : MBind M := λ A B f m g,
  match m g with
  | Done (a, g') => f a g'
  | Raise e => Raise e
  | OutOfFuel => OutOfFuel
  end.

Definition raise {A} (e : exn) : M A := λ _, Raise e.
Definition out_of_fuel {A} : M A := λ _, OutOfFuel.
Definition lift {A} (o : outcome A) : M A := λ g,
  match o with
  | Done a => Done (a, g)
  | Raise e => Raise e
  | OutOfFuel => OutOfFuel
  end.

(** [secrets.randbelow(n)] and the index drawn by [random]: the next cell of
    the tape, reduced below [n]. *)
Definition randbelow (n : nat) : M nat := λ g,
  match n with
  | O => Raise ValueError
  | S _ => Done (tape g (pos g) mod n, Rng (tape g) (S (pos g)))
  end.

(** ** Python floats *)

(** The float operations of [opponent_fairness_score] and the comparison of
    [optimize_opponent_fairness]. The operations are those of the source,
    each with the rounding Python gives it; of [<] it is only used that it
    is a strict order, which holds on binary64 (with its infinities and
    NaN, that compares below nothing). *)
Class PyFloat := {
  pyfloat : Type;
  (** [a / b] on two [int]: true division, for [b] not zero. *)
  int_truediv : Z → Z → pyfloat;
  (** The conversion of an [int] operand of a float operation. *)
  float_of_int : Z → pyfloat;
  (** [x - y]. *)
  float_sub : pyfloat → pyfloat → pyfloat;
  (** [x ** 2]. *)
  float_pow2 : pyfloat → pyfloat;
  (** [sum(xs)] on floats. *)
  float_sum : list pyfloat → pyfloat;
  (** [x / y], for [y] not zero. *)
  float_truediv : pyfloat → pyfloat → pyfloat;
  (** [x < y]. *)
  float_lt : pyfloat → pyfloat → Prop;
  float_lt_dec :: RelDecision float_lt;
  float_lt_strict :: StrictOrder float_lt
}.

(** [x <= y] on floats that are not NaN. *)
Definition float_le {F : PyFloat} (x y : pyfloat) : Prop := x = y ∨ float_lt x y.

(** The arithmetic without rounding: the operations on exact rationals. *)
Definition Qc_of_int (n : Z) : Qc := Qc_of_Z n.

Definition Qc_sum (l : list Qc) : Qc := foldr Qcplus 0%Qc l.

Definition exact_floats : PyFloat := {|
  pyfloat := Qc;
  int_truediv := λ a b, (Qc_of_int a / Qc_of_int b)%Qc;
  float_of_int := Qc_of_int;
  float_sub := λ x y, (x - y)%Qc;
  float_pow2 := λ x, (x ^ 2)%Qc;
  float_sum := Qc_sum;
  float_truediv := λ x y, (x / y)%Qc;
  float_lt := Qclt
|}.

(** ** The vocabulary of the generation drivers *)

(** What the driver reports or writes for a group. *)
Inductive event :=
  | Skipped (cls grp : string)
  | Winner_by_default (car : string)
  | Sheet_written (cls grp : string) (df : heat_table)
  | Write_error (cls grp : string)
  | Generation_failed (cls grp : string).

Record group := Group {
  g_class : string;
  g_group : string;
  g_cars : list string
}.

(** The order of [sort_values(by=["Heat", "Lane"])]. *)
Definition heat_lane_le (r1 r2 : row) : Prop :=
  (Heat r1 < Heat r2)%Z ∨
  (Heat r1 = Heat r2 ∧ String.leb (Lane r1) (Lane r2) = true).

#[global] Instance heat_lane_le_dec : RelDecision heat_lane_le.
Proof. unfold heat_lane_le. solve_decision. Defined.

(** The attempt budget of both drivers. *)
Definition max_attempts : nat := 200.

Module RaceUtils.

(** [l[i], l[j] = l[j], l[i]]. *)
Definition swap {A} (l : list A) (i j : nat) : list A :=
  match l !! i, l !! j with
  | Some x, Some y => <[j := x]> (<[i := y]> l)
  | _, _ => l
  end.

(** The loop [for i in reversed(range(1, len(lst_copy)))] of
    [secure_shuffle], entered at index [i]. *)
Fixpoint shuffle_from {A} (i : nat) (lst_copy : list A) : M (list A) :=
  match i with
  | O => mret lst_copy
  | S i' =>
      j ← randbelow (S i);
      shuffle_from i' (swap lst_copy i j)
  end.

Definition secure_shuffle {A} (lst : list A) : M (list A) :=
  shuffle_from (length lst - 1) lst.

(** The order in which Python iterates over a set is not specified: it is
    drawn from the tape, so that every order is the order of some tape. *)
Definition set_iteration_order {K} `{Countable K} (s : gset K) : M (list K) :=
  secure_shuffle (elements s).

(** [random.sample(population, 2)]: two distinct positions. *)
Definition random_sample2 {A} `{Inhabited A} (population : list A) : M (A * A) :=
  let n := length population in
  if bool_decide (n < 2)%nat then raise ValueError
  else
    i ← randbelow n;
    j ← randbelow (n - 1);
    mret (population !!! i, delete i population !!! j).

(** [random.choice(seq)]. *)
Definition random_choice {A} `{Inhabited A} (seq : list A) : M A :=
  match seq with
  | [] => raise IndexError
  | _ => i ← randbelow (length seq); mret (seq !!! i)
  end.

(** *** Opponent analysis *)

(** The body of the loop over the heats in [analyze_opponents]:
    [for car in cars: opponents[car].update(cars - {car})]. *)
Definition add_heat_opponents (cars : gset string)
    (opponents : gmap string (gset string)) : gmap string (gset string) :=
  set_fold (λ car opp, <[car := default ∅ (opp !! car) ∪ (cars ∖ {[car]})]> opp)
    opponents cars.

Definition analyze_opponents (heats_df : heat_table) : gmap string (gset string) :=
  foldl (λ opponents h,
           add_heat_opponents (list_to_set (Car <$> rows_where Heat h heats_df))
             opponents)
    ∅ (unique (Heat <$> heats_df)).

(** [opponents.values()]: the values in the order in which their keys were
    inserted. [analyze_opponents] inserts the cars in the iteration order of
    sets of cars, which Python leaves open: the order is drawn from the
    tape. *)
Definition dict_values {K V} `{Countable K} (d : gmap K V) : M (list V) :=
  items ← secure_shuffle (map_to_list d);
  mret (items.*2).

(** [opponent_fairness_score]: the population variance of the sizes of the
    opponent sets, in the float arithmetic of the interface. The division
    [sum(counts) / len(counts)] of two [int] raises on the empty dict. *)
Definition opponent_fairness_score {F : PyFloat}
    (opponents : gmap string (gset string)) : M pyfloat :=
  values ← dict_values opponents;
  let counts := (λ opp : gset string, Z.of_nat (size opp)) <$> values in
  match counts with
  | [] => raise ZeroDivisionError
  | _ =>
      let avg := int_truediv (foldr Z.add 0%Z counts) (Z.of_nat (length counts)) in
      mret (float_truediv
              (float_sum ((λ count, float_pow2 (float_sub (float_of_int count) avg))
                            <$> counts))
              (float_of_int (Z.of_nat (length counts))))
  end.

Definition fairness {F : PyFloat} (df : heat_table) : M pyfloat :=
  opponent_fairness_score (analyze_opponents df).

(** *** The opponent-fairness optimizer *)

Definition set_Car (idx : nat) (car : string) (df : heat_table) : heat_table :=
  alter (λ r, Row (Heat r) car (Lane r)) idx df.

(** The proposal of one iteration: the cars of lane [lane] in the heats
    [h1] and [h2] are exchanged when both cells are occupied and neither car
    is already in the other heat. *)
Definition propose_swap (h1 h2 : Z) (lane : string) (trial_df : heat_table)
    : heat_table :=
  let idx1 := filter (λ ir, Heat (ir.2) = h1 ∧ Lane (ir.2) = lane) (indexed trial_df) in
  let idx2 := filter (λ ir, Heat (ir.2) = h2 ∧ Lane (ir.2) = lane) (indexed trial_df) in
  match idx1, idx2 with
  | (i1, r1) :: _, (i2, r2) :: _ =>
      let car1 := Car r1 in
      let car2 := Car r2 in
      let heat1_cars : gset string :=
        list_to_set (Car <$> rows_where Heat h1 trial_df) in
      let heat2_cars : gset string :=
        list_to_set (Car <$> rows_where Heat h2 trial_df) in
      if bool_decide ((car2 ∉ heat1_cars) ∧ (car1 ∉ heat2_cars))
      then set_Car i2 car1 (set_Car i1 car2 trial_df)
      else trial_df
  | _, _ => trial_df
  end.

Section optimizer.
(** The loop is written once for any score and any comparison, and then
    taken at the fairness score with [<] on floats. *)
Context {score_t : Type} (score : heat_table → M score_t).
Context (lt : score_t → score_t → Prop) `{!RelDecision lt}.

Fixpoint optimize_loop (iterations : nat) (lanes : list string)
    (heats : list Z) (best_df : heat_table) (best_score : score_t)
    : M (heat_table * score_t) :=
  match iterations with
  | O => mret (best_df, best_score)
  | S iterations =>
      '(h1, h2) ← random_sample2 heats;
      lane ← random_choice lanes;
      let trial_df := propose_swap h1 h2 lane best_df in
      trial_score ← score trial_df;
      if bool_decide (lt trial_score best_score)
      then optimize_loop iterations lanes heats trial_df trial_score
      else optimize_loop iterations lanes heats best_df best_score
  end.

Definition optimize_with (heats_df : heat_table) (iterations : Z)
    : M heat_table :=
  let best_df := heats_df in
  initial_score ← score best_df;
  let lanes := unique (Lane <$> heats_df) in
  let heats := unique (Heat <$> heats_df) in
  '(best_df, _) ← optimize_loop (Z.to_nat iterations) lanes heats
                     best_df initial_score;
  mret best_df.
End optimizer.

Definition optimize_opponent_fairness {F : PyFloat} (heats_df : heat_table)
    (iterations : Z) : M heat_table :=
  optimize_with fairness float_lt heats_df iterations.

Definition default_iterations : Z := 500.

(** *** The slot rebalancer *)

(** The order of [sort_values(by=["Heat", "Lane", "Car"])]. *)
Definition row_le (r1 r2 : row) : Prop :=
  (Heat r1 < Heat r2)%Z ∨
  (Heat r1 = Heat r2 ∧
   (String.ltb (Lane r1) (Lane r2) = true ∨
    (Lane r1 = Lane r2 ∧ String.leb (Car r1) (Car r2) = true))).

#[global] Instance row_le_dec : RelDecision row_le.
Proof. unfold row_le. solve_decision. Defined.

Definition sort_values (df : heat_table) : heat_table := merge_sort row_le df.

Definition set_Heat (idx : nat) (h : Z) (df : heat_table) : heat_table :=
  alter (λ r, Row h (Car r) (Lane r)) idx df.

(** [for idx, row in donor_heat.iterrows()]: the index of the first row of
    the donor whose car and lane are both free in the target heat. *)
Fixpoint find_move (donor_heat : list (nat * row))
    (used_cars used_lanes : gset string) : option nat :=
  match donor_heat with
  | [] => None
  | (idx, r) :: donor_heat =>
      if bool_decide ((Car r ∉ used_cars) ∧ (Lane r ∉ used_lanes))
      then Some idx
      else find_move donor_heat used_cars used_lanes
  end.

(** [for donor_heat_num in heat_numbers]: the first full heat that can give
    a row gives it, the table is sorted again and the search stops. *)
Fixpoint search_donors (heats_df : heat_table) (num_lanes heat_num : Z)
    (used_cars used_lanes : gset string) (donors : list Z) : heat_table :=
  match donors with
  | [] => heats_df
  | donor_heat_num :: donors =>
      if bool_decide (donor_heat_num = heat_num)
      then search_donors heats_df num_lanes heat_num used_cars used_lanes donors
      else
        let donor_heat :=
          filter (λ ir, Heat (ir.2) = donor_heat_num) (indexed heats_df) in
        if bool_decide (Z.of_nat (length donor_heat) ≠ num_lanes)
        then search_donors heats_df num_lanes heat_num used_cars used_lanes donors
        else
          match find_move donor_heat used_cars used_lanes with
          | Some idx => sort_values (set_Heat idx heat_num heats_df)
          | None =>
              search_donors heats_df num_lanes heat_num used_cars used_lanes donors
          end
  end.

(** The body of [for heat_num in heat_numbers]. *)
Definition rebalance_heat (num_lanes : Z) (heat_numbers : list Z)
    (heats_df : heat_table) (heat_num : Z) : heat_table :=
  let current_heat := rows_where Heat heat_num heats_df in
  if bool_decide (Z.of_nat (length current_heat) ≠ num_lanes - 2)%Z
  then heats_df
  else
    let used_cars : gset string := list_to_set (Car <$> current_heat) in
    let used_lanes : gset string := list_to_set (Lane <$> current_heat) in
    search_donors heats_df num_lanes heat_num used_cars used_lanes heat_numbers.

Definition rebalance_heats (heats_df : heat_table) (num_lanes : Z) : heat_table :=
  let heat_numbers := unique (Heat <$> heats_df) in
  foldl (rebalance_heat num_lanes heat_numbers) heats_df heat_numbers.

End RaceUtils.

Module HeatsPerfect.
Import RaceUtils.

(** [validate_heats] of heats_perfect.py. The [print] calls are dropped;
    [all_cars] is [None] or the list of expected cars. *)
Definition validate_heats (heat_df : heat_table) (expected_races_per_car : Z)
    (min_cars_per_heat : Z) (all_cars : option (list string)) : bool :=
  let valid := true in
  let car_lane_counts := groupby_size (λ r, (Car r, Lane r)) heat_df in
  let duplicates := filter (λ kv, 1 < kv.2) car_lane_counts in
  let valid := if bool_decide (duplicates ≠ ∅) then false else valid in
  let total_races := groupby_size Car heat_df in
  let invalid_race_counts :=
    filter (λ kv, Z.of_nat kv.2 ≠ expected_races_per_car) total_races in
  let valid := if bool_decide (invalid_race_counts ≠ ∅) then false else valid in
  let valid :=
    match all_cars with
    | Some cars =>
        let missing_cars : gset string :=
          list_to_set cars ∖ list_to_set (Car <$> heat_df) in
        if bool_decide (missing_cars ≠ ∅) then false else valid
    | None => valid
    end in
  let valid :=
    if any_size (λ n, 1 < n) (groupby_size (λ r, (Heat r, Car r)) heat_df)
    then false else valid in
  let valid :=
    if any_size (λ n, 1 < n) (groupby_size (λ r, (Heat r, Lane r)) heat_df)
    then false else valid in
  let valid :=
    if any_size (λ n, (Z.of_nat n < min_cars_per_heat)%Z)
         (groupby_size Heat heat_df)
    then false else valid in
  valid.

(** The default of the keyword argument [min_cars_per_heat]. *)
Definition default_min_cars_per_heat : Z := 2.

(** *** The run pool and the heat packer *)

(** A pending obligation [{"Car": car, "Lane": lane}]. *)
Record run := Run { run_Car : string; run_Lane : string }.

#[global] Instance run_eq_dec : EqDecision run.
Proof. solve_decision. Defined.

Definition all_lane_labels : list string :=
  ["A"; "B"; "C"; "D"; "E"; "F"; "G"; "H"].

(** [for car in entry_list]: the first [runs_per_car] lanes of a fresh
    shuffle of the lane labels. *)
Fixpoint build_run_pool (entry_list lane_labels : list string)
    (runs_per_car : Z) : M (list run) :=
  match entry_list with
  | [] => mret []
  | car :: entry_list =>
      shuffled ← secure_shuffle lane_labels;
      let chosen_lanes := slice_to runs_per_car shuffled in
      run_pool ← build_run_pool entry_list lane_labels runs_per_car;
      mret ((Run car <$> chosen_lanes) ++ run_pool)
  end.

(** The inner loop [while i < len(run_pool) and len(heat) < num_lanes].
    The index [i] is never advanced: every iteration pops [run_pool[0]],
    into the heat when its car and lane are free, into [skipped_runs]
    otherwise. The result is the heat, what is left of the pool, and the
    skipped runs. *)
Fixpoint form_heat (heat_num num_lanes : Z) (run_pool : list run)
    (heat : list row) (used_cars used_lanes : gset string)
    (skipped_runs : list run) : list row * list run * list run :=
  match run_pool with
  | [] => (heat, [], skipped_runs)
  | run :: rest =>
      if bool_decide (Z.of_nat (length heat) < num_lanes)%Z then
        if bool_decide ((run_Car run ∉ used_cars) ∧ (run_Lane run ∉ used_lanes))
        then
          form_heat heat_num num_lanes rest
            (heat ++ [Row heat_num (run_Car run) (run_Lane run)])
            ({[run_Car run]} ∪ used_cars) ({[run_Lane run]} ∪ used_lanes)
            skipped_runs
        else
          form_heat heat_num num_lanes rest heat used_cars used_lanes
            (skipped_runs ++ [run])
      else (heat, run_pool, skipped_runs)
  end.

Record pack_state := PackState {
  run_pool : list run;
  heats : list (list row);
  heat_num : Z
}.

(** One iteration of [while run_pool]. *)
Definition pack_step (num_lanes : Z) (st : pack_state) : M pack_state :=
  let '(heat, rest, skipped_runs) :=
    form_heat (heat_num st) num_lanes (run_pool st) [] ∅ ∅ [] in
  let run_pool := rest ++ skipped_runs in
  if bool_decide (2 ≤ length heat)%nat
  then mret (PackState run_pool (heats st ++ [heat]) (heat_num st + 1))
  else
    run_pool ← secure_shuffle run_pool;
    mret (PackState run_pool (heats st) (heat_num st)).

Fixpoint pack_loop (fuel : nat) (num_lanes : Z) (st : pack_state)
    : M pack_state :=
  match run_pool st with
  | [] => mret st
  | _ :: _ =>
      match fuel with
      | O => out_of_fuel
      | S fuel => st ← pack_step num_lanes st; pack_loop fuel num_lanes st
      end
  end.

(** [generate_heats]. The fuel of the packing loop is the size of the pool,
    which bounds the number of its iterations. An empty list of heats makes
    [pd.DataFrame] a table without columns, on which the rebalancer raises. *)
Definition generate_heats {F : PyFloat} (entry_list : list string) (num_lanes : Z)
    (runs_per_car : option Z) : M heat_table :=
  let lane_labels := slice_to num_lanes all_lane_labels in
  let runs_per_car := default num_lanes runs_per_car in
  let runs_per_car := Z.max 2 (Z.min runs_per_car num_lanes) in
  run_pool ← build_run_pool entry_list lane_labels runs_per_car;
  run_pool ← secure_shuffle run_pool;
  st ← pack_loop (length run_pool) num_lanes (PackState run_pool [] 1);
  let heats_raw := concat (heats st) in
  match heats_raw with
  | [] => raise KeyError
  | _ =>
      let balanced_df := rebalance_heats heats_raw num_lanes in
      optimize_opponent_fairness balanced_df default_iterations
  end.

(** *** The generation driver *)

(** [for attempt in range(200): ... else: print("[FAIL] ...")]. A sheet
    that cannot be written ([OSError]) is reported and the loop goes on. *)
Fixpoint perfect_attempts {F : PyFloat} (attempts : nat)
    (write_ok : string → string → heat_table → bool)
    (cls grp : string) (car_entries : list string) (lanes runs : Z)
    : M (list event) :=
  match attempts with
  | O => mret [Generation_failed cls grp]
  | S attempts =>
      gen_heats_df ← generate_heats car_entries lanes (Some runs);
      if validate_heats gen_heats_df runs default_min_cars_per_heat
           (Some car_entries)
      then
        let sheet := merge_sort heat_lane_le gen_heats_df in
        if write_ok cls grp sheet
        then mret [Sheet_written cls grp sheet]
        else
          evs ← perfect_attempts attempts write_ok cls grp car_entries lanes runs;
          mret (Write_error cls grp :: evs)
      else perfect_attempts attempts write_ok cls grp car_entries lanes runs
  end.

(** The body of the loop over the groups of the main program. *)
Definition perfect_group {F : PyFloat} (write_ok : string → string → heat_table → bool)
    (lanes runs : Z) (g : group) : M (list event) :=
  car_entries ← secure_shuffle (g_cars g);
  if bool_decide (length car_entries ≤ 1)%nat then
    match car_entries with
    | car :: _ => mret [Winner_by_default car]
    | [] => raise IndexError
    end
  else
    perfect_attempts max_attempts write_ok (g_class g) (g_group g)
      car_entries lanes runs.

Fixpoint perfect_groups {F : PyFloat} (write_ok : string → string → heat_table → bool)
    (lanes runs : Z) (groups : list group) : M (list event) :=
  match groups with
  | [] => mret []
  | g :: groups =>
      evs ← perfect_group write_ok lanes runs g;
      evs' ← perfect_groups write_ok lanes runs groups;
      mret (evs ++ evs')
  end.

End HeatsPerfect.

Module HeatsRunoff.
Import RaceUtils.

(** [chr(n)] for a code point of one byte. Lanes are labelled from "A". *)
Definition chr (n : nat) : string := String (Ascii.ascii_of_nat n) "".
Definition ord_A : nat := 65.

(** [[chr(ord("A") + i) for i in range(num_lanes)]]. *)
Definition lane_labels (num_lanes : Z) : list string :=
  (λ i, chr (ord_A + i)) <$> seq 0 (Z.to_nat num_lanes).

(** [zip] applied to the unpacked list [ls]: the columns of [ls], as many
    as the shortest list has. *)
Fixpoint zip_columns {A} (n : nat) (ls : list (list A)) : list (list A) :=
  match n with
  | O => []
  | S n =>
      match mapM head ls with
      | Some column => column :: zip_columns n (tail <$> ls)
      | None => []
      end
  end.

Definition zip_star {A} (ls : list (list A)) : list (list A) :=
  match ls with
  | [] => []
  | l :: _ => zip_columns (length l) ls
  end.

Definition _generate_small_group_heats (cars lane_labels : list string)
    : heat_table :=
  let used_lanes := take (length cars) lane_labels in
  let car_rotations :=
    (λ i, drop i cars ++ take i cars) <$> seq 0 (length cars) in
  let lane_zips := zip_star car_rotations in
  concat (imap (λ k lane_rotation,
                  (λ cl, Row (Z.of_nat (S k)) (cl.1) (cl.2))
                    <$> zip lane_rotation used_lanes)
            lane_zips).

(** [itertools.combinations(l, 2)]. *)
Fixpoint combinations2 {A} (l : list A) : list (A * A) :=
  match l with
  | [] => []
  | x :: l => (pair x <$> l) ++ combinations2 l
  end.

(** [frozenset(pair)]. *)
Definition frozenset2 (p : string * string) : gset string := {[p.1; p.2]}.

Definition all_matchups (cars : list string) : gset (gset string) :=
  list_to_set (frozenset2 <$> combinations2 cars).

(** [sorted(heat_cars)]: strings in lexicographic order. *)
Definition string_le (a b : string) : Prop := String.leb a b = true.

#[global] Instance string_le_dec : RelDecision string_le.
Proof. unfold string_le. solve_decision. Defined.

Definition sorted_strings (l : list string) : list string :=
  merge_sort string_le l.

(** [for pair in sorted(unmatched)], on the matchups in the order of the scan.
    [car1, car2 = tuple(pair)] raises [ValueError] unless the frozenset has
    two elements. *)
Fixpoint greedy_scan (num_lanes : Z) (order : list (gset string))
    (heat_cars : gset string) (used_pairs : gset (gset string))
    : outcome (gset string * gset (gset string)) :=
  match order with
  | [] => Done (heat_cars, used_pairs)
  | matchup :: order =>
      match elements matchup with
      | [car1; car2] =>
          if bool_decide (car1 ∈ heat_cars ∨ car2 ∈ heat_cars)
          then greedy_scan num_lanes order heat_cars used_pairs
          else if bool_decide (Z.of_nat (size heat_cars) + 2 > num_lanes)%Z
          then greedy_scan num_lanes order heat_cars used_pairs
          else greedy_scan num_lanes order
                 ({[car1; car2]} ∪ heat_cars) ({[matchup]} ∪ used_pairs)
      | _ => Raise ValueError
      end
  end.

(** The state of [while unmatched]. The field [forced] is a ghost: it
    collects the numbers of the heats built by the force-add branch. *)
Record rr_state := RRState {
  unmatched : gset (gset string);
  rr_heats : heat_table;
  rr_heat_num : Z;
  forced : list Z
}.

(** One iteration of [while unmatched]. [sorted] compares frozensets by
    strict inclusion, which never holds between two different sets of two
    cars, so it leaves the pairs in the order in which the set is iterated;
    [list(unmatched)[0]] is the first pair of that same order. *)
Definition rr_step (num_lanes : Z) (lane_labels : list string) (st : rr_state)
    : M rr_state :=
  order ← set_iteration_order (unmatched st);
  '(heat_cars, used_pairs) ← lift (greedy_scan num_lanes order ∅ ∅);
  '(heat_cars, used_pairs, forced) ←
    (if bool_decide (size heat_cars < 2)%nat then
       match order with
       | leftover :: _ =>
           mret (leftover ∪ heat_cars, {[leftover]} ∪ used_pairs,
                 forced st ++ [rr_heat_num st])
       | [] => raise IndexError
       end
     else mret (heat_cars, used_pairs, forced st));
  let unmatched := unmatched st ∖ used_pairs in
  shuffled ← secure_shuffle lane_labels;
  let assigned_lanes := take (size heat_cars) shuffled in
  let rows :=
    (λ cl, Row (rr_heat_num st) (cl.1) (cl.2))
      <$> zip (sorted_strings (elements heat_cars)) assigned_lanes in
  mret (RRState unmatched (rr_heats st ++ rows) (rr_heat_num st + 1) forced).

Fixpoint rr_loop (fuel : nat) (num_lanes : Z) (lane_labels : list string)
    (st : rr_state) : M rr_state :=
  if bool_decide (unmatched st = ∅) then mret st
  else
    match fuel with
    | O => out_of_fuel
    | S fuel =>
        st ← rr_step num_lanes lane_labels st;
        rr_loop fuel num_lanes lane_labels st
    end.

(** The pairing packer with its fuel made explicit. *)
Definition pairing_packer (fuel : nat) (cars : list string) (num_lanes : Z)
    : M rr_state :=
  let matchups := all_matchups cars in
  rr_loop fuel num_lanes (lane_labels num_lanes) (RRState matchups [] 1 []).

(** [generate_round_robin_heats]. Every iteration of the loop removes a
    matchup, so the number of matchups is fuel enough. *)
Definition generate_round_robin_heats (cars : list string) (num_lanes : Z)
    : M heat_table :=
  if bool_decide (Z.of_nat (length cars) ≤ num_lanes)%Z
  then mret (_generate_small_group_heats cars (lane_labels num_lanes))
  else
    st ← pairing_packer (size (all_matchups cars)) cars num_lanes;
    mret (rr_heats st).

(** *** The round-robin validator *)

Definition has_duplicates {A} `{EqDecision A} (l : list A) : bool :=
  bool_decide (¬ NoDup l).

Definition _validate_heat (group : heat_table) : bool :=
  let ok := true in
  let ok := if bool_decide (length group < 2)%nat then false else ok in
  let ok := if has_duplicates (Car <$> group) then false else ok in
  let ok := if has_duplicates (Lane <$> group) then false else ok in
  ok.

Definition _validate_small_group (heats_df : heat_table) (cars : list string)
    : bool :=
  let ok := true in
  let unique_heats := length (unique (Heat <$> heats_df)) in
  let ok := if bool_decide (unique_heats ≠ length cars) then false else ok in
  foldl (λ ok car,
           let car_rows := rows_where Car car heats_df in
           let lanes_run := length (unique (Lane <$> car_rows)) in
           let total_runs := length car_rows in
           let ok := if bool_decide (lanes_run ≠ length cars) then false else ok in
           let ok := if bool_decide (total_runs ≠ length cars) then false else ok in
           ok)
    ok cars.

Definition actual_matchups (heats_df : heat_table) : gset (gset string) :=
  foldl (λ actual h,
           list_to_set (frozenset2
                          <$> combinations2 (Car <$> rows_where Heat h heats_df))
           ∪ actual)
    ∅ (unique (Heat <$> heats_df)).

Definition _check_matchups (heats_df : heat_table)
    (expected_matchups : gset (gset string)) : bool :=
  let missing := expected_matchups ∖ actual_matchups heats_df in
  bool_decide (missing = ∅).

(** [validate_runoff_heats]. A table without rows is the frame that the
    generators build from an empty list of rows, [pd.DataFrame([])]: it has
    no column, and [heats_df.groupby("Heat")], the first thing the validator
    evaluates, raises [KeyError]. *)
Definition validate_runoff_heats (heats_df : heat_table)
    (expected_matchups : gset (gset string)) (cars : option (list string))
    (num_lanes : option Z) : outcome bool :=
  match heats_df with
  | [] => Raise KeyError
  | _ :: _ =>
      let valid :=
        forallb (λ h, _validate_heat (rows_where Heat h heats_df))
          (unique (Heat <$> heats_df)) in
      let valid :=
        match cars, num_lanes with
        | Some ((_ :: _) as cars), Some num_lanes =>
            if bool_decide (num_lanes ≠ 0 ∧ Z.of_nat (length cars) ≤ num_lanes)%Z
            then _validate_small_group heats_df cars && valid
            else valid
        | _, _ => valid
        end in
      let valid := if negb (_check_matchups heats_df expected_matchups)
                   then false else valid in
      Done valid
  end.

(** *** The generation driver *)

(** [for _ in range(200): ... break / else: print("[FAIL] ..."); return]:
    the first table that passes, or [None] when the budget is used up. An
    exception of the generator or of the validator is not caught. *)
Fixpoint runoff_attempts (attempts : nat) (cars : list string) (num_lanes : Z)
    (expected_matchups : gset (gset string)) : M (option heat_table) :=
  match attempts with
  | O => mret None
  | S attempts =>
      heats_df ← generate_round_robin_heats cars num_lanes;
      valid ← lift (validate_runoff_heats heats_df expected_matchups
                      (Some cars) (Some num_lanes));
      if valid : bool
      then mret (Some heats_df)
      else runoff_attempts attempts cars num_lanes expected_matchups
  end.

Definition process_class_group (cls grp : string) (group_cars : list string)
    (num_lanes : Z) : M (list event) :=
  cars ← secure_shuffle group_cars;
  if bool_decide (length cars < 2)%nat then mret [Skipped cls grp]
  else
    let expected_matchups := all_matchups cars in
    found ← runoff_attempts max_attempts cars num_lanes expected_matchups;
    match found with
    | None => mret [Generation_failed cls grp]
    | Some heats_df =>
        mret [Sheet_written cls grp
                (merge_sort heat_lane_le heats_df)]
    end.

(** The loop over the groups in [main]. *)
Fixpoint process_groups (num_lanes : Z) (groups : list group) : M (list event) :=
  match groups with
  | [] => mret []
  | g :: groups =>
      evs ← process_class_group (g_class g) (g_group g) (g_cars g) num_lanes;
      evs' ← process_groups num_lanes groups;
      mret (evs ++ evs')
  end.

End HeatsRunoff.

(** * Properties *)

(** ** Lists, groups and counts *)

Section lists.
Context {A : Type} `{EqDecision A}.

Lemma elem_of_unique (l : list A) (x : A) : x ∈ unique l ↔ x ∈ l.
Proof.
  induction l as [|y l IH]; simpl; [done|].
  rewrite !elem_of_cons, list_elem_of_filter, IH.
  destruct (decide (x = y)); naive_solver.
Qed.


Lemma unique_nil_inv (l : list A) : unique l = [] → l = [].
Proof. by destruct l. Qed.
End lists.

Section groups.
Context {K : Type} `{Countable K}.
Implicit Types (key : row → K) (df : heat_table) (k : K).

Lemma rows_where_cons key k r df :
  rows_where key k (r :: df) =
    if decide (key r = k) then r :: rows_where key k df
    else rows_where key k df.
Proof. unfold rows_where. by rewrite filter_cons. Qed.

Lemma groupby_size_lookup key df k :
  groupby_size key df !! k =
    match length (rows_where key k df) with
    | O => None
    | S n => Some (S n)
    end.
Proof.
  induction df as [|r df IH]; simpl; [done|].
  rewrite rows_where_cons.
  destruct (decide (key r = k)) as [->|Hne].
  - rewrite lookup_insert_eq, IH. simpl.
    by destruct (length (rows_where key k df)).
  - by rewrite lookup_insert_ne.
Qed.

Lemma groupby_size_Some key df k n :
  groupby_size key df !! k = Some n ↔
  n = length (rows_where key k df) ∧ k ∈ key <$> df.
Proof.
  rewrite groupby_size_lookup.
  assert (k ∈ key <$> df ↔ rows_where key k df ≠ []) as ->.
  { unfold rows_where. rewrite list_elem_of_fmap. split.
    - intros (r & -> & Hr) Hnil.
      assert (r ∈ filter (λ r0, key r0 = key r) df) as Hin
        by by apply list_elem_of_filter.
      rewrite Hnil in Hin. by apply elem_of_nil in Hin.
    - intros Hne. destruct (filter _ df) as [|r l] eqn:E; [done|].
      assert (r ∈ filter (λ r0, key r0 = k) df) as Hin
        by (rewrite E; left).
      apply list_elem_of_filter in Hin as [? ?]. eauto. }
  destruct (rows_where key k df) as [|r l]; simpl; naive_solver.
Qed.

(** A column holds no value twice exactly when every group has at most
    one row. *)
Lemma NoDup_fmap_rows_where key df :
  NoDup (key <$> df) ↔ ∀ k, length (rows_where key k df) ≤ 1.
Proof.
  induction df as [|r df IH]; simpl.
  - split; [intros _ k; simpl; lia | intros _; constructor].
  - rewrite NoDup_cons, IH. split.
    + intros [Hnin Hall] k. rewrite rows_where_cons.
      destruct (decide (key r = k)) as [<-|]; [|done].
      simpl. destruct (rows_where key (key r) df) as [|r' l] eqn:E; [simpl; lia|].
      exfalso. apply Hnin. apply list_elem_of_fmap. exists r'.
      assert (r' ∈ rows_where key (key r) df) as Hin by (rewrite E; left).
      apply list_elem_of_filter in Hin as [? ?]. done.
    + intros Hall. split.
      * intros (r' & Hk & Hin)%list_elem_of_fmap.
        specialize (Hall (key r)). rewrite rows_where_cons in Hall.
        rewrite decide_True in Hall by done. simpl in Hall.
        assert (r' ∈ rows_where key (key r) df) as Hin'
          by by apply list_elem_of_filter.
        destruct (rows_where key (key r) df); [by apply elem_of_nil in Hin'|].
        simpl in Hall. lia.
      * intros k. specialize (Hall k). rewrite rows_where_cons in Hall.
        destruct (decide (key r = k)); simpl in Hall; lia.
Qed.

Lemma any_size_true key df (P : nat → Prop) `{∀ n, Decision (P n)} :
  any_size P (groupby_size key df) = true ↔
  ∃ k, k ∈ key <$> df ∧ P (length (rows_where key k df)).
Proof.
  unfold any_size. rewrite bool_decide_eq_true, map_Exists_lookup.
  split.
  - intros (k & n & [-> Hk]%groupby_size_Some & HP). eauto.
  - intros (k & Hk & HP). exists k, (length (rows_where key k df)).
    split; [|done]. by apply groupby_size_Some.
Qed.

Lemma any_size_false key df (P : nat → Prop) `{∀ n, Decision (P n)} :
  any_size P (groupby_size key df) = false ↔
  ∀ k, k ∈ key <$> df → ¬ P (length (rows_where key k df)).
Proof.
  rewrite <- not_true_iff_false, any_size_true. naive_solver.
Qed.

Lemma filter_sizes_empty key df (P : nat → Prop) `{∀ n, Decision (P n)} :
  filter (λ kv : K * nat, P (kv.2)) (groupby_size key df) = ∅ ↔
  ∀ k, k ∈ key <$> df → ¬ P (length (rows_where key k df)).
Proof.
  rewrite map_empty_filter. unfold map_Forall. simpl. split.
  - intros Hall k Hk. apply (Hall k). by apply groupby_size_Some.
  - intros Hall k n [-> Hk]%groupby_size_Some. by apply Hall.
Qed.

Lemma no_group_above_one key df :
  (∀ k, k ∈ key <$> df → ¬ 1 < length (rows_where key k df)) ↔
  NoDup (key <$> df).
Proof.
  rewrite NoDup_fmap_rows_where. split.
  - intros Hall k. destruct (decide (k ∈ key <$> df)) as [Hk|Hk].
    + specialize (Hall k Hk). lia.
    + destruct (rows_where key k df) as [|r l] eqn:E; [simpl; lia|].
      exfalso. apply Hk. apply list_elem_of_fmap. exists r.
      assert (r ∈ rows_where key k df) as Hin by (rewrite E; left).
      apply list_elem_of_filter in Hin as [? ?]. done.
  - intros Hall k _. specialize (Hall k). lia.
Qed.
End groups.

Section filters.
Context {A : Type} (P : A → Prop) `{∀ x, Decision (P x)}.


End filters.


(** ** Randomized computations *)

Section monad.
Context {A B : Type}.
Implicit Types (m : M A) (f : A → M B) (g : rng).

Lemma bind_Done m f g a g' : m g = Done (a, g') → (m ≫= f) g = f a g'.
Proof. unfold mbind, M_bind. by intros ->. Qed.

Lemma bind_Done_inv m f g b g'' :
  (m ≫= f) g = Done (b, g'') →
  ∃ a g', m g = Done (a, g') ∧ f a g' = Done (b, g'').
Proof.
  unfold mbind, M_bind. destruct (m g) as [[a g']| |]; [eauto|done|done].
Qed.

Lemma bind_not_OutOfFuel m f g :
  m g ≠ OutOfFuel → (∀ a g', f a g' ≠ OutOfFuel) → (m ≫= f) g ≠ OutOfFuel.
Proof.
  unfold mbind, M_bind. destruct (m g) as [[a g']| |]; [auto|done|done].
Qed.
End monad.

Lemma randbelow_S n g :
  randbelow (S n) g = Done (tape g (pos g) mod S n, Rng (tape g) (S (pos g))).
Proof. done. Qed.

Module ShuffleSpec.
Import RaceUtils.

Section shuffle.
Context {A : Type}.
Implicit Types (l : list A).

Lemma insert_head_perm l j x y :
  l !! j = Some y → y :: <[j := x]> l ≡ₚ x :: l.
Proof.
  revert j. induction l as [|a l IH]; intros [|j] Hj; simplify_eq/=.
  - apply perm_swap.
  - rewrite (perm_swap a y). rewrite (IH j Hj). apply perm_swap.
Qed.

Lemma swap_perm l i j : swap l i j ≡ₚ l.
Proof.
  unfold swap.
  destruct (l !! i) as [x|] eqn:Hi; [|done].
  destruct (l !! j) as [y|] eqn:Hj; [|done].
  revert i j Hi Hj. induction l as [|a l IH]; intros [|i] [|j] Hi Hj;
    simplify_eq/=; try done.
  - by apply insert_head_perm.
  - by apply insert_head_perm.
  - f_equiv. by apply IH.
Qed.

Lemma swap_length l i j : length (swap l i j) = length l.
Proof. by rewrite swap_perm. Qed.

Lemma shuffle_from_perm i l g :
  ∃ l' g', shuffle_from i l g = Done (l', g') ∧ l' ≡ₚ l.
Proof.
  revert l g. induction i as [|i IH]; intros l g; simpl.
  - by exists l, g.
  - erewrite bind_Done by apply randbelow_S.
    destruct (IH (swap l (S i) (tape g (pos g) mod S (S i)))
                (Rng (tape g) (S (pos g)))) as (l' & g' & -> & Hperm).
    exists l', g'. split; [done|]. by rewrite Hperm, swap_perm.
Qed.

Lemma secure_shuffle_perm l g :
  ∃ l' g', secure_shuffle l g = Done (l', g') ∧ l' ≡ₚ l.
Proof. apply shuffle_from_perm. Qed.
End shuffle.

Lemma set_iteration_order_perm {K} `{Countable K} (s : gset K) g :
  ∃ l g', set_iteration_order s g = Done (l, g') ∧ l ≡ₚ elements s.
Proof. apply secure_shuffle_perm. Qed.

End ShuffleSpec.

(** ** The Perfect-N validator *)

Module HeatsPerfectSpec.
Import RaceUtils HeatsPerfect.

(** The six conditions of a valid Perfect-N table. *)
Record perfect_n_valid (df : heat_table) (expected_races_per_car : Z)
    (min_cars_per_heat : Z) (all_cars : option (list string)) : Prop := {
  no_car_lane_twice : NoDup ((λ r, (Car r, Lane r)) <$> df);
  race_counts :
    ∀ car, car ∈ Car <$> df →
      Z.of_nat (length (rows_where Car car df)) = expected_races_per_car;
  no_car_missing :
    ∀ cars, all_cars = Some cars → ∀ car, car ∈ cars → car ∈ Car <$> df;
  no_car_twice_in_heat : NoDup ((λ r, (Heat r, Car r)) <$> df);
  no_lane_twice_in_heat : NoDup ((λ r, (Heat r, Lane r)) <$> df);
  heats_large_enough :
    ∀ h, h ∈ Heat <$> df →
      (min_cars_per_heat ≤ Z.of_nat (length (rows_where Heat h df)))%Z
}.

(** [validate_heats] decides the six conditions. *)
Lemma validate_heats_iff (heat_df : heat_table)
    (expected_races_per_car min_cars_per_heat : Z)
    (all_cars : option (list string)) :
  validate_heats heat_df expected_races_per_car min_cars_per_heat all_cars = true
  ↔ perfect_n_valid heat_df expected_races_per_car min_cars_per_heat all_cars.
Proof.
  unfold validate_heats.
  pose proof (filter_sizes_empty (λ r, (Car r, Lane r)) heat_df (λ n, 1 < n)) as Ha.
  pose proof (filter_sizes_empty Car heat_df
                (λ n, Z.of_nat n ≠ expected_races_per_car)) as Hb.
  pose proof (any_size_false (λ r, (Heat r, Car r)) heat_df (λ n, 1 < n)) as Hd.
  pose proof (any_size_false (λ r, (Heat r, Lane r)) heat_df (λ n, 1 < n)) as He.
  pose proof (any_size_false Heat heat_df
                (λ n, (Z.of_nat n < min_cars_per_heat)%Z)) as Hf.
  rewrite no_group_above_one in Ha. rewrite no_group_above_one in Hd.
  rewrite no_group_above_one in He.
  assert (Hc : ∀ cars : list string,
             (list_to_set cars ∖ list_to_set (Car <$> heat_df) : gset string) = ∅
             ↔ ∀ car, car ∈ cars → car ∈ Car <$> heat_df).
  { intros cars. split.
    - intros Hempty car Hcar.
      destruct (decide (car ∈ Car <$> heat_df)) as [|Hnin]; [done|].
      assert (car ∈ (list_to_set cars ∖ list_to_set (Car <$> heat_df)
                     : gset string)) as Hin.
      { apply elem_of_difference. rewrite !elem_of_list_to_set. done. }
      rewrite Hempty in Hin. set_solver.
    - intros Hall. apply set_eq. intros car.
      rewrite elem_of_difference, !elem_of_list_to_set. set_solver. }
  split.
  - intros Hv.
    repeat match type of Hv with
           | context [bool_decide ?P] => destruct (bool_decide_reflect P)
           | context [any_size ?P ?s] => destruct (any_size P s) eqn:?
           | context [match all_cars with _ => _ end] => destruct all_cars
           end; try discriminate.
    + split.
      * apply Ha. by apply dec_stable.
      * intros car Hcar. apply dec_stable. revert car Hcar. apply Hb.
        by apply dec_stable.
      * intros cars [= <-]. apply Hc. by apply dec_stable.
      * by apply Hd.
      * by apply He.
      * intros h Hh. apply Hf in Hh; [lia|done].
    + split.
      * apply Ha. by apply dec_stable.
      * intros car Hcar. apply dec_stable. revert car Hcar. apply Hb.
        by apply dec_stable.
      * intros cars [=].
      * by apply Hd.
      * by apply He.
      * intros h Hh. apply Hf in Hh; [lia|done].
  - intros [Va Vb Vc Vd Ve Vf].
    apply Ha in Va.
    assert (filter (λ kv : string * nat, Z.of_nat (kv.2) ≠ expected_races_per_car)
              (groupby_size Car heat_df) = ∅) as Hb'.
    { apply Hb. intros car Hcar Hne. by apply Hne, Vb. }
    apply Hd in Vd. apply He in Ve. rewrite Vd, Ve.
    assert (any_size (λ n, (Z.of_nat n < min_cars_per_heat)%Z)
              (groupby_size Heat heat_df) = false) as ->.
    { apply Hf. intros h Hh. specialize (Vf h Hh). lia. }
    rewrite !bool_decide_eq_false_2 by (intros Hne; apply Hne; assumption).
    destruct all_cars as [cars|]; [|done].
    rewrite bool_decide_eq_false_2; [done|].
    intros Hne. apply Hne, Hc. by apply Vc.
Qed.

(** C1. [validate_heats] is a total boolean function, and it answers [true]
    exactly for the tables in which (a) no (Car, Lane) pair occurs twice,
    (b) every car of the table has [expected_races_per_car] rows, (c) no car
    of [all_cars], when given, is absent, (d) no car and (e) no lane occurs
    twice in a heat, and (f) every heat has at least [min_cars_per_heat]
    rows. *)
Theorem validate_heats_correct (heat_df : heat_table)
    (expected_races_per_car min_cars_per_heat : Z)
    (all_cars : option (list string)) :
  validate_heats heat_df expected_races_per_car min_cars_per_heat all_cars = true
  ↔ perfect_n_valid heat_df expected_races_per_car min_cars_per_heat all_cars.
Proof.
  split.
  - intros Hvalid. by apply validate_heats_iff.
  - intros Hvalid. by apply validate_heats_iff.
Qed.

(** ** The Perfect-N heat packer *)

(** The obligation a row of a heat came from. *)
Definition run_of (r : row) : run := Run (Car r) (Lane r).

(** The heat under construction only grows, and the runs of the pool are
    shared out between the heat, the rest of the pool and the skipped runs. *)
Lemma form_heat_spec hn nl pool heat uc ul skipped heat' rest skipped' :
  form_heat hn nl pool heat uc ul skipped = (heat', rest, skipped') →
  ∃ extra, heat' = heat ++ extra ∧
           (run_of <$> extra) ++ rest ++ skipped' ≡ₚ pool ++ skipped.
Proof.
  revert heat uc ul skipped.
  induction pool as [|run pool IH]; intros heat uc ul skipped Hform;
    simpl in Hform.
  - simplify_eq. exists []. by rewrite app_nil_r.
  - case_bool_decide; [|simplify_eq; exists []; by rewrite app_nil_r].
    case_bool_decide.
    + apply IH in Hform as (extra & -> & Hperm).
      exists (Row hn (run_Car run) (run_Lane run) :: extra).
      split; [by rewrite <- app_assoc|].
      simpl. rewrite Hperm. by destruct run.
    + apply IH in Hform as (extra & -> & Hperm).
      exists extra. split; [done|].
      rewrite Hperm. simpl. by rewrite app_assoc, <- Permutation_cons_append.
Qed.

(** The first run of the pool always enters the empty heat. *)
Lemma form_heat_first hn nl run pool :
  (1 ≤ nl)%Z →
  form_heat hn nl (run :: pool) [] ∅ ∅ [] =
  form_heat hn nl pool [Row hn (run_Car run) (run_Lane run)]
    ({[run_Car run]} ∪ ∅) ({[run_Lane run]} ∪ ∅) [].
Proof.
  intros Hnl. simpl.
  rewrite bool_decide_eq_true_2 by (simpl; lia).
  rewrite bool_decide_eq_true_2 by set_solver. done.
Qed.

Lemma pack_step_spec nl st g run pool :
  (1 ≤ nl)%Z → run_pool st = run :: pool →
  ∃ extra rest skipped pool' g',
    form_heat (heat_num st) nl (run_pool st) [] ∅ ∅ [] =
      (Row (heat_num st) (run_Car run) (run_Lane run) :: extra, rest, skipped) ∧
    (run_of <$> extra) ++ rest ++ skipped ≡ₚ pool ∧
    pool' ≡ₚ rest ++ skipped ∧
    pack_step nl st g =
      Done (if bool_decide (2 ≤ S (length extra))
            then PackState (rest ++ skipped)
                   (heats st ++ [Row (heat_num st) (run_Car run) (run_Lane run)
                                   :: extra])
                   (heat_num st + 1)
            else PackState pool' (heats st) (heat_num st), g').
Proof.
  intros Hnl Hpool. unfold pack_step. rewrite Hpool.
  rewrite form_heat_first by done.
  destruct (form_heat _ _ pool _ _ _ _) as [[heat rest] skipped] eqn:Hform.
  apply form_heat_spec in Hform as (extra & -> & Hperm).
  rewrite app_nil_r in Hperm. simpl.
  destruct (ShuffleSpec.secure_shuffle_perm (rest ++ skipped) g)
    as (pool' & g' & Hsh & Hperm').
  case_bool_decide.
  - exists extra, rest, skipped, (rest ++ skipped), g.
    rewrite bool_decide_eq_true_2 by done. done.
  - exists extra, rest, skipped, pool', g'.
    rewrite bool_decide_eq_false_2 by done.
    split_and!; [done..|]. by erewrite bind_Done by exact Hsh.
Qed.

(** Every iteration of [while run_pool] makes the pool smaller. *)
Lemma pack_step_shrinks nl st g :
  (1 ≤ nl)%Z → run_pool st ≠ [] →
  ∃ st' g', pack_step nl st g = Done (st', g') ∧
            length (run_pool st') < length (run_pool st).
Proof.
  intros Hnl Hne. destruct (run_pool st) as [|run pool] eqn:Hpool; [done|].
  destruct (pack_step_spec nl st g run pool Hnl Hpool)
    as (extra & rest & skipped & pool' & g' & _ & Hperm & Hperm' & ->).
  eexists _, _. split; [done|].
  apply (f_equal length) in Hpool. apply Permutation_length in Hperm, Hperm'.
  rewrite !length_app, length_fmap in Hperm.
  rewrite length_app in Hperm'.
  case_bool_decide; simpl; rewrite ?length_app; lia.
Qed.

Lemma pack_loop_Done nl fuel st g :
  (1 ≤ nl)%Z → length (run_pool st) ≤ fuel →
  ∃ st' g', pack_loop fuel nl st g = Done (st', g') ∧ run_pool st' = [].
Proof.
  intros Hnl. revert st g. induction fuel as [|fuel IH]; intros st g Hfuel.
  - destruct (run_pool st) eqn:Hpool; simpl in Hfuel; [|lia].
    exists st, g. simpl. by rewrite Hpool.
  - simpl. destruct (run_pool st) as [|run pool] eqn:Hpool.
    { by exists st, g. }
    destruct (pack_step_shrinks nl st g Hnl) as (st1 & g1 & Hstep & Hlt).
    { by rewrite Hpool. }
    rewrite Hpool in Hlt. simpl in Hlt, Hfuel.
    destruct (IH st1 g1) as (st' & g' & Hloop & Hempty); [lia|].
    exists st', g'. split; [|done]. by erewrite bind_Done by exact Hstep.
Qed.

(** C8. With two lanes or more, one iteration of the heat-formation loop
    on a pool that is not empty returns and leaves a strictly smaller pool;
    hence the loop, given one unit of fuel per run of the pool, ends, and it
    ends with the pool empty. This holds for every pool, so for the pool of
    any car list and any [runs_per_car], and for every tape. *)
Theorem packer_terminates (num_lanes : Z) (st : pack_state) (g : rng)
    (fuel : nat) :
  (2 ≤ num_lanes)%Z →
  length (run_pool st) ≤ fuel →
  (run_pool st ≠ [] →
   ∃ st' g', pack_step num_lanes st g = Done (st', g') ∧
             length (run_pool st') < length (run_pool st)) ∧
  (∃ st' g', pack_loop fuel num_lanes st g = Done (st', g') ∧
             run_pool st' = []).
Proof.
  intros Hnl Hfuel. split.
  - intros Hne. apply pack_step_shrinks; [lia|done].
  - apply pack_loop_Done; [lia|done].
Qed.

Lemma packer_terminates_witness :
  ∃ st' g',
    pack_loop 4 2
      (PackState [Run "1" "A"; Run "2" "B"; Run "1" "B"; Run "2" "A"] [] 1)
      (Rng (λ n, n) 0) = Done (st', g') ∧ run_pool st' = [].
Proof.
  apply (packer_terminates 2
           (PackState [Run "1" "A"; Run "2" "B"; Run "1" "B"; Run "2" "A"] [] 1)
           (Rng (λ n, n) 0) 4); simpl; lia.
Defined.

(** The run obligations a state of the packer still carries: the runs of
    the pool and the runs placed in the heats. *)
Definition obligations (st : pack_state) : list run :=
  run_pool st ++ (run_of <$> concat (heats st)).

(** C5, as stated, fails: from the pool [7/A, 7/B] the heat formed has the
    single run 7/A, and after the step that run is neither in the pool nor
    in a heat. *)
Lemma undersized_heat_loses_its_run :
  pack_step 2 (PackState [Run "7" "A"; Run "7" "B"] [] 1) (Rng (λ n, n) 0)
    = Done (PackState [Run "7" "B"] [] 1, Rng (λ n, n) 0)
  ∧ form_heat 1 2 [Run "7" "A"; Run "7" "B"] [] ∅ ∅ []
    = ([Row 1 "7" "A"], [], [Run "7" "B"])
  ∧ Run "7" "A" ∉ obligations (PackState [Run "7" "B"] [] 1).
Proof.
  split_and!; [vm_compute; reflexivity..|].
  unfold obligations. simpl. set_solver.
Qed.

(** C5, amended. A heat formed with fewer than two runs holds exactly the
    first run of the pool; the step discards it: the new pool is the
    reshuffled remainder (every other run of the old pool, each once), the
    kept heats and the heat number are unchanged, and so the obligations
    are those of before less that first run. *)
Theorem undersized_heat_is_discarded (num_lanes : Z) (st : pack_state)
    (g : rng) (first : run) (pool : list run) :
  (1 ≤ num_lanes)%Z →
  run_pool st = first :: pool →
  length (form_heat (heat_num st) num_lanes (run_pool st) [] ∅ ∅ []).1.1 < 2 →
  ∃ st' g',
    pack_step num_lanes st g = Done (st', g') ∧
    (form_heat (heat_num st) num_lanes (run_pool st) [] ∅ ∅ []).1.1
      = [Row (heat_num st) (run_Car first) (run_Lane first)] ∧
    run_pool st' ≡ₚ pool ∧
    heats st' = heats st ∧ heat_num st' = heat_num st ∧
    first :: obligations st' ≡ₚ obligations st.
Proof.
  intros Hnl Hpool Hsmall.
  destruct (pack_step_spec num_lanes st g first pool Hnl Hpool)
    as (extra & rest & skipped & pool' & g' & Hform & Hperm & Hperm' & Hstep).
  rewrite Hform in Hsmall |- *. simpl in Hsmall.
  destruct extra as [|r extra]; [|simpl in Hsmall; lia].
  simpl in Hstep, Hperm.
  eexists _, _. split; [exact Hstep|]. simpl.
  split_and!; try done.
  - by rewrite Hperm', Hperm.
  - unfold obligations. simpl. rewrite Hpool, Hperm', Hperm. done.
Qed.

Lemma undersized_heat_is_discarded_witness :
  ∃ st' g',
    pack_step 2 (PackState [Run "7" "A"; Run "7" "B"] [] 1) (Rng (λ n, n) 0)
      = Done (st', g') ∧
    run_pool st' ≡ₚ [Run "7" "B"].
Proof.
  destruct (undersized_heat_is_discarded 2
              (PackState [Run "7" "A"; Run "7" "B"] [] 1) (Rng (λ n, n) 0)
              (Run "7" "A") [Run "7" "B"])
    as (st' & g' & Hstep & _ & Hperm & _); [lia|reflexivity|vm_compute; lia|].
  by exists st', g'.
Defined.

End HeatsPerfectSpec.

Module SmallGroupSpec.
Import RaceUtils HeatsRunoff ShuffleSpec.

(** ** The small-group rotator *)

Section columns.
Context {A : Type} `{Inhabited A}.
Implicit Types (l : list A) (ls : list (list A)).

Lemma list_as_lookups l : (λ i, l !!! i) <$> seq 0 (length l) = l.
Proof.
  apply list_eq. intros i. rewrite list_lookup_fmap.
  destruct (decide (i < length l)) as [Hi|Hi].
  - rewrite lookup_seq_lt by done. simpl.
    by rewrite (list_lookup_lookup_total_lt l i).
  - rewrite lookup_seq_ge by lia. simpl. symmetry.
    apply lookup_ge_None. lia.
Qed.

Lemma tail_drop l j : tail (drop j l) = drop (S j) l.
Proof. revert l. induction j; intros [|a l]; simpl; done. Qed.

Lemma heads_of_drops ls n j :
  Forall (λ l, length l = n) ls → j < n →
  mapM head (drop j <$> ls) = Some ((λ l, l !!! j) <$> ls).
Proof.
  intros Hall Hj. apply mapM_Some. apply Forall2_fmap.
  apply Forall_Forall2_diag. rewrite Forall_forall in Hall |- *.
  intros l Hl%Hall. simpl. rewrite head_lookup, lookup_drop, Nat.add_0_r.
  apply list_lookup_lookup_total_lt. lia.
Qed.

Lemma zip_columns_drop ls n j m :
  Forall (λ l, length l = n) ls → j + m ≤ n →
  zip_columns m (drop j <$> ls) = (λ j', (λ l, l !!! j') <$> ls) <$> seq j m.
Proof.
  intros Hall. revert j. induction m as [|m IH]; intros j Hj; [done|].
  cbn [zip_columns seq]. rewrite fmap_cons.
  rewrite (heads_of_drops ls n j) by (done || lia).
  f_equal. rewrite <- (IH (S j)) by lia. f_equal.
  rewrite <- list_fmap_compose.
  apply list_fmap_ext. intros ? l _. simpl. apply tail_drop.
Qed.
End columns.


Section rotation.
Context {A : Type}.
Implicit Types (l : list A).

(** The rotation [cars[i:] + cars[:i]]. *)
Definition rot l (i : nat) : list A := drop i l ++ take i l.

Lemma rot_length l i : length (rot l i) = length l.
Proof. unfold rot. rewrite length_app, length_drop, length_take. lia. Qed.

Lemma rot_perm l i : rot l i ≡ₚ l.
Proof. unfold rot. by rewrite Permutation_app_comm, take_drop. Qed.

Lemma rot_lookup l i j :
  i ≤ length l → j < length l →
  rot l i !! j =
    l !! (if decide (i + j < length l) then i + j else i + j - length l).
Proof.
  intros Hi Hj. unfold rot. case_decide.
  - rewrite lookup_app_l by (rewrite length_drop; lia). apply lookup_drop.
  - rewrite lookup_app_r by (rewrite length_drop; lia).
    rewrite length_drop, lookup_take_lt by lia. f_equal. lia.
Qed.

(** The table of the rotations is symmetric: entry [j] of rotation [i] is
    entry [i] of rotation [j]. *)
Lemma rot_lookup_sym l i j :
  i < length l → j < length l → rot l i !! j = rot l j !! i.
Proof.
  intros Hi Hj. rewrite !rot_lookup by lia.
  rewrite (Nat.add_comm j i). done.
Qed.

Lemma concat_fmap_bind {B} (f : A → list B) l : concat (f <$> l) = l ≫= f.
Proof. induction l; simpl; [done|]. by f_equal. Qed.

Lemma imap_seq_self {B} (f : nat → nat → B) a n :
  imap f (seq a n) = (λ k, f (k - a) k) <$> seq a n.
Proof.
  revert a f. induction n as [|n IH]; intros a f; simpl; [done|].
  f_equal; [by rewrite Nat.sub_diag|].
  rewrite IH. apply list_fmap_ext. intros i k [-> Hk]%lookup_seq. simpl.
  f_equal. lia.
Qed.
End rotation.

Lemma zip_star_rect {A} `{Inhabited A} (ls : list (list A)) n :
  ls ≠ [] → Forall (λ l, length l = n) ls →
  zip_star ls = (λ j, (λ l, l !!! j) <$> ls) <$> seq 0 n.
Proof.
  intros Hne Hall. destruct ls as [|l ls]; [done|].
  unfold zip_star. rewrite (Forall_inv Hall).
  assert (drop 0 <$> (l :: ls) = l :: ls) as Hdrop.
  { generalize (l :: ls). intros ks. induction ks; simpl; [done|]. by f_equal. }
  rewrite <- Hdrop at 1.
  by apply (zip_columns_drop _ n).
Qed.

Lemma zip_star_rotations (cars : list string) :
  zip_star (rot cars <$> seq 0 (length cars)) = rot cars <$> seq 0 (length cars).
Proof.
  destruct (decide (length cars = 0)) as [Hz|Hnz].
  { by rewrite Hz. }
  rewrite (zip_star_rect _ (length cars)).
  - apply list_fmap_ext. intros pj j [-> Hj]%lookup_seq. simpl.
    rewrite <- list_fmap_compose.
    rewrite <- (list_as_lookups (rot cars pj)). rewrite rot_length.
    apply list_fmap_ext. intros pi i [-> Hi]%lookup_seq. simpl.
    rewrite !list_lookup_total_alt. f_equal. apply rot_lookup_sym; lia.
  - destruct (length cars); [done|]. by simpl.
  - apply Forall_fmap, Forall_forall. intros i _. simpl. apply rot_length.
Qed.

(** The table of the small-group rotator, heat by heat. *)
Lemma small_group_heats_eq (cars lanes : list string) :
  _generate_small_group_heats cars lanes =
  seq 0 (length cars) ≫= λ k,
    (λ cl, Row (Z.of_nat (S k)) (cl.1) (cl.2))
      <$> zip (rot cars k) (take (length cars) lanes).
Proof.
  unfold _generate_small_group_heats.
  change (λ i, drop i cars ++ take i cars) with (rot cars).
  rewrite zip_star_rotations, imap_fmap, imap_seq_self.
  rewrite <- concat_fmap_bind. f_equal.
  apply list_fmap_ext. intros i k _. simpl. by rewrite Nat.sub_0_r.
Qed.


Section small_group.
Context (cars lanes : list string).
Context (Hcars : NoDup cars) (Hlanes : NoDup lanes).
Context (Hfit : length cars ≤ length lanes).

Let n := length cars.
Let used_lanes := take n lanes.
Let df := _generate_small_group_heats cars lanes.

Lemma used_lanes_NoDup : NoDup used_lanes.
Proof. exact (sublist_NoDup _ _ Hlanes (sublist_take _ _)). Qed.

Lemma used_lanes_length : length used_lanes = n.
Proof. unfold used_lanes. rewrite length_take. lia. Qed.

(** The rows of the table: heat [k + 1] seats entry [i] of rotation [k] in
    lane [i]. *)
Lemma small_group_row r :
  r ∈ df ↔
  ∃ k i, k < n ∧ Heat r = Z.of_nat (S k) ∧
         rot cars k !! i = Some (Car r) ∧ used_lanes !! i = Some (Lane r).
Proof.
  unfold df. rewrite small_group_heats_eq, list_elem_of_bind. split.
  - intros (k & Hr & [_ Hk]%elem_of_seq).
    apply list_elem_of_fmap in Hr as ([c l] & -> & Hcl).
    apply list_elem_of_lookup in Hcl as [i Hi].
    apply lookup_zip_Some in Hi as [Hc Hl].
    exists k, i. simpl. split_and!; [lia|done..].
  - intros (k & i & Hk & Hh & Hc & Hl). exists k. split.
    + apply list_elem_of_fmap. exists (Car r, Lane r). split.
      * destruct r as [h c l]. simpl in *. by subst.
      * apply list_elem_of_lookup. exists i. by apply lookup_zip_Some.
    + apply elem_of_seq. lia.
Qed.

Lemma rot_NoDup k : NoDup (rot cars k).
Proof. by rewrite rot_perm. Qed.

Lemma small_group_NoDup : NoDup df.
Proof.
  unfold df. rewrite small_group_heats_eq. apply NoDup_bind.
  - intros k1 k2 r _ _ ([c1 l1] & -> & _)%list_elem_of_fmap
      ([c2 l2] & [= Hk _ _] & _)%list_elem_of_fmap. lia.
  - intros k _. apply (NoDup_fmap_1 Lane). rewrite <- list_fmap_compose.
    change (Lane ∘ _) with (@snd string string).
    rewrite snd_zip; [apply used_lanes_NoDup|].
    rewrite rot_length, length_take. lia.
  - apply NoDup_seq.
Qed.

(** A row is determined by its heat and car, by its car and lane, and by
    its heat and lane. *)
Lemma small_group_heat_car r1 r2 :
  r1 ∈ df → r2 ∈ df → Heat r1 = Heat r2 → Car r1 = Car r2 → r1 = r2.
Proof.
  intros (k1 & i1 & Hk1 & Hh1 & Hc1 & Hl1)%small_group_row
         (k2 & i2 & Hk2 & Hh2 & Hc2 & Hl2)%small_group_row Hh Hc.
  assert (k1 = k2) as -> by lia.
  rewrite <- Hc in Hc2.
  assert (i1 = i2) as -> by (eapply NoDup_lookup; [apply (rot_NoDup k2)|done..]).
  destruct r1, r2; simpl in *. by simplify_eq.
Qed.

Lemma small_group_car_lane r1 r2 :
  r1 ∈ df → r2 ∈ df → Car r1 = Car r2 → Lane r1 = Lane r2 → r1 = r2.
Proof.
  intros (k1 & i1 & Hk1 & Hh1 & Hc1 & Hl1)%small_group_row
         (k2 & i2 & Hk2 & Hh2 & Hc2 & Hl2)%small_group_row Hc Hl.
  rewrite <- Hl in Hl2. rewrite <- Hc in Hc2.
  assert (i1 = i2) as ->.
  { eapply NoDup_lookup; [apply used_lanes_NoDup|done..]. }
  assert (i2 < n) as Hi.
  { apply lookup_lt_Some in Hl2. by rewrite used_lanes_length in Hl2. }
  rewrite rot_lookup_sym in Hc1, Hc2 by done.
  assert (k1 = k2) as ->
    by (eapply NoDup_lookup; [apply (rot_NoDup i2)|done..]).
  destruct r1, r2; simpl in *. by simplify_eq.
Qed.

Lemma small_group_seat k i c l :
  k < n → rot cars k !! i = Some c → used_lanes !! i = Some l →
  Row (Z.of_nat (S k)) c l ∈ df.
Proof. intros. apply small_group_row. by exists k, i. Qed.

Lemma position_in_rot k c : c ∈ cars → ∃ i, i < n ∧ rot cars k !! i = Some c.
Proof.
  intros Hc. rewrite <- (rot_perm cars k) in Hc.
  apply list_elem_of_lookup in Hc as [i Hi]. exists i. split; [|done].
  apply lookup_lt_Some in Hi. by rewrite rot_length in Hi.
Qed.

Lemma lane_at i : i < n → ∃ l, used_lanes !! i = Some l.
Proof.
  intros Hi. apply lookup_lt_is_Some. by rewrite used_lanes_length.
Qed.

Lemma small_group_key_perm {B} (key : row → B) (P : row → Prop)
    `{∀ r, Decision (P r)} (target : list B) :
  NoDup target →
  (∀ r1 r2, r1 ∈ df → r2 ∈ df → P r1 → P r2 → key r1 = key r2 → r1 = r2) →
  (∀ b, b ∈ target ↔ ∃ r, r ∈ df ∧ P r ∧ key r = b) →
  key <$> filter P df ≡ₚ target.
Proof.
  intros Htarget Hinj Hmem. apply NoDup_Permutation; [|done|].
  - apply NoDup_fmap_2_strong; [|apply NoDup_filter, small_group_NoDup].
    intros r1 r2 [? ?]%list_elem_of_filter [? ?]%list_elem_of_filter.
    by apply Hinj.
  - intros b. rewrite Hmem, list_elem_of_fmap. split.
    + intros (r & -> & [? ?]%list_elem_of_filter). by exists r.
    + intros (r & ? & ? & <-). exists r. split; [done|].
      by apply list_elem_of_filter.
Qed.

Lemma heat_numbers_NoDup : NoDup ((λ k, Z.of_nat (S k)) <$> seq 0 n).
Proof. apply NoDup_fmap_2; [intros ???; lia|apply NoDup_seq]. Qed.

Lemma small_group_heats_of_car car :
  car ∈ cars →
  Heat <$> rows_where Car car df ≡ₚ (λ k, Z.of_nat (S k)) <$> seq 0 n.
Proof.
  intros Hcar. apply small_group_key_perm; [apply heat_numbers_NoDup| |].
  - intros r1 r2 ? ? ? ? ?. apply small_group_heat_car; congruence.
  - intros h. rewrite list_elem_of_fmap. split.
    + intros (k & -> & [_ Hk]%elem_of_seq).
      destruct (position_in_rot k car Hcar) as (i & Hi & Hc).
      destruct (lane_at i Hi) as [l Hl].
      exists (Row (Z.of_nat (S k)) car l). split_and!; [|done..].
      by apply (small_group_seat k i).
    + intros (r & (k & i & Hk & Hh & _)%small_group_row & _ & <-).
      exists k. split; [done|]. apply elem_of_seq. lia.
Qed.

Lemma small_group_lanes_of_car car :
  car ∈ cars → Lane <$> rows_where Car car df ≡ₚ used_lanes.
Proof.
  intros Hcar. apply small_group_key_perm; [apply used_lanes_NoDup| |].
  - intros r1 r2 ? ? ? ? ?. apply small_group_car_lane; congruence.
  - intros l. split.
    + intros [i Hl]%list_elem_of_lookup.
      assert (i < n) as Hi.
      { apply lookup_lt_Some in Hl. by rewrite used_lanes_length in Hl. }
      destruct (position_in_rot i car Hcar) as (k & Hk & Hc).
      rewrite rot_lookup_sym in Hc by done.
      exists (Row (Z.of_nat (S k)) car l). split_and!; [|done..].
      by apply (small_group_seat k i).
    + intros (r & (k & i & _ & _ & _ & Hl)%small_group_row & _ & <-).
      by apply list_elem_of_lookup_2 in Hl.
Qed.

Lemma small_group_cars_of_heat k :
  k < n → Car <$> rows_where Heat (Z.of_nat (S k)) df ≡ₚ cars.
Proof.
  intros Hk. apply small_group_key_perm; [done| |].
  - intros r1 r2 ? ? ? ? ?. apply small_group_heat_car; congruence.
  - intros c. split.
    + intros Hc. destruct (position_in_rot k c Hc) as (i & Hi & Hci).
      destruct (lane_at i Hi) as [l Hl].
      exists (Row (Z.of_nat (S k)) c l). split_and!; [|done..].
      by apply (small_group_seat k i).
    + intros (r & (k' & i & _ & _ & Hc & _)%small_group_row & _ & <-).
      apply list_elem_of_lookup_2 in Hc. by rewrite rot_perm in Hc.
Qed.

Lemma small_group_heat_numbers h :
  0 < n → h ∈ Heat <$> df ↔ (1 ≤ h ≤ Z.of_nat n)%Z.
Proof.
  intros Hpos. rewrite list_elem_of_fmap. split.
  - intros (r & -> & (k & i & Hk & Hh & _)%small_group_row). lia.
  - intros Hh.
    destruct (lane_at 0 Hpos) as [l Hl].
    assert (∃ c, rot cars (Z.to_nat h - 1) !! 0 = Some c) as [c Hc].
    { apply lookup_lt_is_Some. by rewrite rot_length. }
    exists (Row h c l). split; [done|]. apply small_group_row.
    exists (Z.to_nat h - 1), 0. simpl. split_and!; [lia|lia|done..].
Qed.

Lemma small_group_row_range r :
  r ∈ df → Lane r ∈ used_lanes ∧ Car r ∈ cars.
Proof.
  intros (k & i & _ & _ & Hc & Hl)%small_group_row. split.
  - by apply list_elem_of_lookup_2 in Hl.
  - apply list_elem_of_lookup_2 in Hc. by rewrite rot_perm in Hc.
Qed.

End small_group.

(** C3. For [n] distinct cars, [2 ≤ n ≤ len(lane_labels)], and distinct
    lane labels, the table of [_generate_small_group_heats] has exactly the
    heat numbers 1..n; its rows use only the first [n] lane labels; every
    car has one row in each of the [n] heats and one row in each of the [n]
    used lanes; and the cars of every heat are all the cars, so that any two
    cars share every heat. *)
Theorem small_group_rotation (cars lane_labels : list string) :
  NoDup cars → NoDup lane_labels →
  2 ≤ length cars → length cars ≤ length lane_labels →
  let n := length cars in
  let df := _generate_small_group_heats cars lane_labels in
  (∀ h, h ∈ Heat <$> df ↔ (1 ≤ h ≤ Z.of_nat n)%Z) ∧
  (∀ r, r ∈ df → Lane r ∈ take n lane_labels) ∧
  (∀ car, car ∈ cars →
     Heat <$> rows_where Car car df ≡ₚ (λ k, Z.of_nat (S k)) <$> seq 0 n ∧
     Lane <$> rows_where Car car df ≡ₚ take n lane_labels) ∧
  (∀ h, (1 ≤ h ≤ Z.of_nat n)%Z → Car <$> rows_where Heat h df ≡ₚ cars) ∧
  (∀ h car1 car2, (1 ≤ h ≤ Z.of_nat n)%Z → car1 ∈ cars → car2 ∈ cars →
     car1 ∈ Car <$> rows_where Heat h df ∧
     car2 ∈ Car <$> rows_where Heat h df).
Proof.
  intros Hcars Hlanes Hn Hfit n df.
  assert (∀ h, (1 ≤ h ≤ Z.of_nat n)%Z →
               Car <$> rows_where Heat h df ≡ₚ cars) as Hheat.
  { intros h Hh. replace h with (Z.of_nat (S (Z.to_nat h - 1))) by lia.
    apply small_group_cars_of_heat; [done..|]. unfold n in Hh. lia. }
  split_and!.
  - intros h. apply small_group_heat_numbers; [done..|lia].
  - intros r Hr. by apply small_group_row_range in Hr as [? _].
  - intros car Hcar. split.
    + by apply small_group_heats_of_car.
    + by apply small_group_lanes_of_car.
  - done.
  - intros h car1 car2 Hh H1 H2. by rewrite (Hheat h Hh).
Qed.

Lemma small_group_rotation_witness :
  Heat <$> rows_where Car "B"
             (_generate_small_group_heats ["A"; "B"; "C"] ["L1"; "L2"; "L3"; "L4"])
  ≡ₚ [1%Z; 2%Z; 3%Z].
Proof.
  destruct (small_group_rotation ["A"; "B"; "C"] ["L1"; "L2"; "L3"; "L4"])
    as (_ & _ & Hcar & _).
  - apply (bool_decide_unpack _). vm_compute. exact I.
  - apply (bool_decide_unpack _). vm_compute. exact I.
  - simpl. lia.
  - simpl. lia.
  - destruct (Hcar "B") as [Hheats _]; [set_solver|]. exact Hheats.
Defined.

End SmallGroupSpec.

Module PairingSpec.
Import RaceUtils HeatsRunoff ShuffleSpec.

(** ** The pairing packer *)

Section combinations.
Context {A : Type}.
Implicit Types (l : list A).

Lemma elem_of_combinations2 l a b :
  (a, b) ∈ combinations2 l → a ∈ l ∧ b ∈ l ∧ (NoDup l → a ≠ b).
Proof.
  induction l as [|x l IH]; simpl; [by intros ?%elem_of_nil|].
  rewrite elem_of_app, list_elem_of_fmap.
  intros [(y & [= -> ->] & Hy)|Hin].
  - split_and!; [left|by right|].
    intros [Hnin _]%NoDup_cons ->. done.
  - destruct (IH Hin) as (Ha & Hb & Hne).
    split_and!; [by right..|]. intros [_ ?]%NoDup_cons. auto.
Qed.

Lemma combinations2_complete l a b :
  a ∈ l → b ∈ l → a ≠ b →
  (a, b) ∈ combinations2 l ∨ (b, a) ∈ combinations2 l.
Proof.
  induction l as [|x l IH]; simpl; [by intros ?%elem_of_nil|].
  rewrite !elem_of_cons, !elem_of_app, !list_elem_of_fmap.
  intros [->|Ha] [->|Hb] Hne; [done|left|right|].
  - left. by exists b.
  - left. by exists a.
  - destruct (IH Ha Hb Hne); [left|right]; by right.
Qed.
End combinations.

(** A matchup of distinct cars is a set of two cars of the list. *)
Definition is_matchup (cars : list string) (m : gset string) : Prop :=
  ∃ a b, a ∈ cars ∧ b ∈ cars ∧ a ≠ b ∧ m = {[a; b]}.

Lemma all_matchups_spec (cars : list string) (m : gset string) :
  NoDup cars → m ∈ all_matchups cars ↔ is_matchup cars m.
Proof.
  intros Hcars. unfold all_matchups, is_matchup.
  rewrite elem_of_list_to_set, list_elem_of_fmap. split.
  - intros ([a b] & -> & (Ha & Hb & Hne)%elem_of_combinations2).
    exists a, b. auto.
  - intros (a & b & Ha & Hb & Hne & ->).
    destruct (combinations2_complete cars a b Ha Hb Hne);
      [exists (a, b)|exists (b, a)]; (split; [|done]);
      unfold frozenset2; simpl; set_solver.
Qed.

Lemma matchup_size cars m : is_matchup cars m → size m = 2.
Proof.
  intros (a & b & _ & _ & Hne & ->).
  rewrite size_union, !size_singleton by set_solver. done.
Qed.

Lemma two_elements (m : gset string) :
  size m = 2 → ∃ c1 c2, elements m = [c1; c2] ∧ c1 ≠ c2 ∧ m = {[c1; c2]}.
Proof.
  intros Hsize. unfold size, set_size in Hsize. simpl in Hsize.
  pose proof (NoDup_elements m) as Hnd.
  pose proof (list_to_set_elements_L m) as Hset.
  destruct (elements m) as [|c1 [|c2 [|c3 l]]]; simplify_eq/=.
  exists c1, c2. split_and!; [done| |set_solver].
  apply NoDup_cons in Hnd as [Hnin _]. set_solver.
Qed.

(** *** The greedy scan *)

Lemma greedy_scan_spec nl order hc up :
  Forall (λ m, size m = 2) order →
  ∃ hc' up',
    greedy_scan nl order hc up = Done (hc', up') ∧
    hc ⊆ hc' ∧ up ⊆ up' ∧
    (∀ m, m ∈ up' → m ∈ up ∨ m ∈ order) ∧
    ((∀ m, m ∈ up → m ⊆ hc) → ∀ m, m ∈ up' → m ⊆ hc') ∧
    ((Z.of_nat (size hc) ≤ nl)%Z → (Z.of_nat (size hc') ≤ nl)%Z).
Proof.
  intros Horder. revert hc up.
  induction Horder as [|m order Hm Horder IH]; intros hc up; simpl.
  { exists hc, up. split_and!; [done..|set_solver|done|done]. }
  destruct (two_elements m Hm) as (c1 & c2 & -> & Hne & Hset).
  case_bool_decide as Hused; [|case_bool_decide as Hfull].
  - destruct (IH hc up) as (hc' & up' & -> & ? & ? & Hup & ? & ?).
    exists hc', up'. split_and!; [done..| |done|done].
    intros m' Hm'. destruct (Hup m' Hm'); [by left|right; by right].
  - destruct (IH hc up) as (hc' & up' & -> & ? & ? & Hup & ? & ?).
    exists hc', up'. split_and!; [done..| |done|done].
    intros m' Hm'. destruct (Hup m' Hm'); [by left|right; by right].
  - destruct (IH ({[c1; c2]} ∪ hc) ({[m]} ∪ up))
      as (hc' & up' & -> & Hhc & Hupm & Hup & Hcov & Hsize).
    exists hc', up'. split_and!; [done|set_solver|set_solver| | |].
    + intros m' Hm'. destruct (Hup m' Hm') as [[->%elem_of_singleton|]%elem_of_union|];
        [right; left|by left|right; by right].
    + intros Hin. apply Hcov. intros m' [->%elem_of_singleton|Hm']%elem_of_union.
      * set_solver.
      * specialize (Hin m' Hm'). set_solver.
    + intros Hle. apply Hsize.
      rewrite size_union by set_solver.
      rewrite size_union, !size_singleton by set_solver. lia.
Qed.

(** With two lanes or more, the first matchup of the scan enters the empty
    heat: the heat under construction receives its two cars. *)
Lemma greedy_scan_first nl m order :
  (2 ≤ nl)%Z → Forall (λ m, size m = 2) (m :: order) →
  ∃ hc up, greedy_scan nl (m :: order) ∅ ∅ = Done (hc, up) ∧
           m ∈ up ∧ m ⊆ hc ∧ 2 ≤ size hc.
Proof.
  intros Hnl [Hm Horder]%Forall_cons.
  destruct (two_elements m Hm) as (c1 & c2 & Hel & Hne & Hset).
  cbn [greedy_scan]. rewrite Hel.
  rewrite bool_decide_eq_false_2 by set_solver.
  rewrite bool_decide_eq_false_2 by (rewrite size_empty; lia).
  destruct (greedy_scan_spec nl order ({[c1; c2]} ∪ ∅) ({[m]} ∪ ∅) Horder)
    as (hc & up & -> & Hhc & Hup & _).
  exists hc, up. split_and!; [done|set_solver|set_solver|].
  rewrite <- (matchup_size [c1; c2] m).
  - apply subseteq_size. set_solver.
  - exists c1, c2. set_solver.
Qed.

(** *** One heat *)

(** A matchup is realized by a table when one heat seats all its cars. *)
Definition covered (m : gset string) (df : heat_table) : Prop :=
  ∃ h, ∀ c, c ∈ m → ∃ l, Row h c l ∈ df.

Lemma covered_app m df rows : covered m df → covered m (df ++ rows).
Proof.
  intros [h Hh]. exists h. intros c Hc. destruct (Hh c Hc) as [l Hl].
  exists l. apply elem_of_app. by left.
Qed.

Lemma sorted_strings_perm l : sorted_strings l ≡ₚ l.
Proof. apply merge_sort_Permutation. Qed.

(** Every car of the heat gets a row when the lanes are enough. *)
Lemma heat_rows_cover (hn : Z) (hc : gset string) (shuffled : list string) c :
  size hc ≤ length shuffled → c ∈ hc →
  ∃ l, Row hn c l ∈
         (λ cl, Row hn (cl.1) (cl.2))
           <$> zip (sorted_strings (elements hc)) (take (size hc) shuffled).
Proof.
  intros Hfit Hc.
  assert (c ∈ sorted_strings (elements hc)) as Hin.
  { rewrite sorted_strings_perm. by apply elem_of_elements. }
  apply list_elem_of_lookup in Hin as [i Hi].
  assert (i < size hc) as Hlt.
  { apply lookup_lt_Some in Hi. by rewrite sorted_strings_perm in Hi. }
  destruct (lookup_lt_is_Some_2 (take (size hc) shuffled) i) as [l Hl].
  { rewrite length_take. lia. }
  exists l. apply list_elem_of_fmap. exists (c, l). split; [done|].
  apply list_elem_of_lookup. exists i. by apply lookup_zip_Some.
Qed.

Lemma rr_step_spec nl labels st g :
  (2 ≤ nl)%Z → length labels = Z.to_nat nl →
  unmatched st ≠ ∅ → (∀ m, m ∈ unmatched st → size m = 2) →
  ∃ st' g',
    rr_step nl labels st g = Done (st', g') ∧
    unmatched st' ⊂ unmatched st ∧
    forced st' = forced st ∧
    (∀ m, m ∈ unmatched st → m ∉ unmatched st' → covered m (rr_heats st')) ∧
    (∃ rows, rr_heats st' = rr_heats st ++ rows).
Proof.
  intros Hnl Hlabels Hne Hsizes.
  destruct (set_iteration_order_perm (unmatched st) g)
    as (order & g1 & Horder & Hperm).
  assert (Forall (λ m, size m = 2) order) as Hall.
  { apply Forall_forall. intros m Hm. apply Hsizes.
    rewrite Hperm in Hm. by apply elem_of_elements. }
  destruct order as [|m order].
  { exfalso. apply Hne. apply set_eq. intros x.
    rewrite <- elem_of_elements, <- Hperm. set_solver. }
  destruct (greedy_scan_spec nl (m :: order) ∅ ∅ Hall)
    as (hc & up & Hscan & _ & _ & Hup & Hcov & Hsize).
  destruct (greedy_scan_first nl m order Hnl Hall)
    as (hc2 & up2 & Hscan2 & Hm & _ & Hbig).
  rewrite Hscan in Hscan2. simplify_eq.
  destruct (secure_shuffle_perm labels g1) as (shuffled & g2 & Hsh & Hperm2).
  unfold rr_step, mbind, M_bind, lift. rewrite Horder, Hscan.
  rewrite bool_decide_eq_false_2 by lia.
  unfold mret, M_ret. rewrite Hsh.
  eexists _, _. split; [done|]. simpl.
  assert (m ∈ unmatched st) as Hmu.
  { apply elem_of_elements. rewrite <- Hperm. left. }
  split_and!.
  - split; [set_solver|]. intros Hsub. specialize (Hsub m Hmu). set_solver.
  - done.
  - intros m' Hm' Hgone.
    assert (m' ∈ up2) as Hin by set_solver.
    exists (rr_heat_num st). intros c Hc.
    destruct (heat_rows_cover (rr_heat_num st) hc2 shuffled c) as [l Hl].
    + rewrite Hperm2, Hlabels. rewrite size_empty in Hsize. lia.
    + apply (Hcov ltac:(set_solver) m' Hin c Hc).
    + exists l. apply elem_of_app. by right.
  - eauto.
Qed.

(** *** The loop *)

Lemma lane_labels_length nl : length (lane_labels nl) = Z.to_nat nl.
Proof. unfold lane_labels. by rewrite length_fmap, length_seq. Qed.

Lemma rr_loop_spec nl labels fuel st g :
  (2 ≤ nl)%Z → length labels = Z.to_nat nl →
  (∀ m, m ∈ unmatched st → size m = 2) →
  size (unmatched st) ≤ fuel →
  ∃ st' g',
    rr_loop fuel nl labels st g = Done (st', g') ∧
    unmatched st' = ∅ ∧
    forced st' = forced st ∧
    (∀ m, m ∈ unmatched st → covered m (rr_heats st')) ∧
    (∀ m, covered m (rr_heats st) → covered m (rr_heats st')).
Proof.
  intros Hnl Hlabels. revert st g.
  induction fuel as [|fuel IH]; intros st g Hsizes Hfuel.
  - assert (unmatched st = ∅) as Hempty.
    { apply leibniz_equiv, size_empty_inv. lia. }
    exists st, g. simpl. rewrite bool_decide_eq_true_2 by done.
    split_and!; [done..| |done]. intros m. rewrite Hempty. set_solver.
  - simpl. case_bool_decide as Hempty.
    { exists st, g. split_and!; [done..| |done].
      intros m. rewrite Hempty. set_solver. }
    destruct (rr_step_spec nl labels st g Hnl Hlabels Hempty Hsizes)
      as (st1 & g1 & Hstep & Hsub & Hforced & Hcov & rows & Hrows).
    destruct (IH st1 g1) as (st' & g' & Hloop & He & Hf & Hc1 & Hc2).
    { intros m Hm. apply Hsizes. set_solver. }
    { apply subset_size in Hsub. lia. }
    exists st', g'. split_and!.
    + by erewrite bind_Done by exact Hstep.
    + done.
    + congruence.
    + intros m Hm. destruct (decide (m ∈ unmatched st1)); [by apply Hc1|].
      by apply Hc2, Hcov.
    + intros m Hm. apply Hc2. rewrite Hrows. by apply covered_app.
Qed.

(** More fuel does not change the result of a run that ended. *)
Lemma rr_loop_more_fuel nl labels fuel extra st g r :
  rr_loop fuel nl labels st g = Done r →
  rr_loop (fuel + extra) nl labels st g = Done r.
Proof.
  revert st g. induction fuel as [|fuel IH]; intros st g; simpl.
  - case_bool_decide; [|done]. intros <-.
    destruct extra; simpl; by rewrite bool_decide_eq_true_2.
  - case_bool_decide; [done|].
    unfold mbind, M_bind. destruct (rr_step _ _ _ _) as [[st1 g1]| |]; [|done..].
    apply IH.
Qed.

(** The force-add branch does not run in a loop that ends. *)
Lemma rr_loop_forced nl labels fuel st g st' g' :
  (2 ≤ nl)%Z → length labels = Z.to_nat nl →
  (∀ m, m ∈ unmatched st → size m = 2) →
  rr_loop fuel nl labels st g = Done (st', g') → forced st' = forced st.
Proof.
  intros Hnl Hlabels. revert st g.
  induction fuel as [|fuel IH]; intros st g Hsizes; simpl.
  - case_bool_decide; [|done]. by intros [= <- <-].
  - case_bool_decide as Hempty; [by intros [= <- <-]|].
    destruct (rr_step_spec nl labels st g Hnl Hlabels Hempty Hsizes)
      as (st1 & g1 & Hstep & Hsub & Hforced & _).
    erewrite bind_Done by exact Hstep. intros Hloop.
    apply IH in Hloop; [congruence|]. intros m Hm. apply Hsizes. set_solver.
Qed.

Lemma all_matchups_sizes cars m :
  NoDup cars → m ∈ all_matchups cars → size m = 2.
Proof.
  intros Hcars Hm. apply (matchup_size cars). by apply all_matchups_spec.
Qed.

(** C2. For a list of distinct cars longer than the number of lanes, and
    two lanes or more, [generate_round_robin_heats] returns a table, and
    any two different cars of the list have rows in a common heat of it.
    The fuel is no cut-off: with any fuel not below the number of matchups
    the packer ends, with the same table and all matchups removed. *)
Theorem round_robin_coverage (cars : list string) (num_lanes : Z) (g : rng) :
  NoDup cars → (2 ≤ num_lanes)%Z → (num_lanes < Z.of_nat (length cars))%Z →
  ∃ df g',
    generate_round_robin_heats cars num_lanes g = Done (df, g') ∧
    (∀ car1 car2, car1 ∈ cars → car2 ∈ cars → car1 ≠ car2 →
       ∃ h lane1 lane2, Row h car1 lane1 ∈ df ∧ Row h car2 lane2 ∈ df) ∧
    (∀ fuel, size (all_matchups cars) ≤ fuel →
       ∃ st, pairing_packer fuel cars num_lanes g = Done (st, g') ∧
             unmatched st = ∅ ∧ rr_heats st = df).
Proof.
  intros Hcars Hnl Hmore.
  destruct (rr_loop_spec num_lanes (lane_labels num_lanes)
              (size (all_matchups cars))
              (RRState (all_matchups cars) [] 1 []) g)
    as (st & g' & Hloop & Hempty & _ & Hcov & _);
    [done|apply lane_labels_length|
     intros m; by apply all_matchups_sizes|done|].
  exists (rr_heats st), g'. split_and!.
  - unfold generate_round_robin_heats.
    rewrite bool_decide_eq_false_2 by lia.
    unfold pairing_packer. by erewrite bind_Done by exact Hloop.
  - intros a b Ha Hb Hne.
    destruct (Hcov {[a; b]}) as [h Hh].
    { simpl. apply all_matchups_spec; [done|]. by exists a, b. }
    destruct (Hh a) as [la Hla]; [set_solver|].
    destruct (Hh b) as [lb Hlb]; [set_solver|].
    by exists h, la, lb.
  - intros fuel Hfuel. exists st. split; [|done].
    unfold pairing_packer.
    replace fuel with (size (all_matchups cars)
                       + (fuel - size (all_matchups cars))) by lia.
    by apply rr_loop_more_fuel.
Qed.

Lemma round_robin_coverage_witness :
  ∃ df g',
    generate_round_robin_heats ["C1"; "C2"; "C3"; "C4"] 3 (Rng (λ n, n) 0)
      = Done (df, g') ∧
    ∃ h lane1 lane2, Row h "C1" lane1 ∈ df ∧ Row h "C4" lane2 ∈ df.
Proof.
  destruct (round_robin_coverage ["C1"; "C2"; "C3"; "C4"] 3 (Rng (λ n, n) 0))
    as (df & g' & Hgen & Hcov & _).
  - apply (bool_decide_unpack _). vm_compute. exact I.
  - lia.
  - simpl. lia.
  - exists df, g'. split; [exact Hgen|].
    apply Hcov; [left|do 3 right; left|discriminate].
Defined.

(** C10. For distinct cars, more cars than lanes and two lanes or more:
    in every state the loop can be in (matchups of the cars left unmatched,
    not none), whatever the order of the scan, the first matchup of the
    scan enters the empty heat, which so holds two cars at least and the
    guard [len(heat_cars) < 2] is false; and the run of the packer ends
    without a single heat built by the force-add branch. *)
Theorem forced_fallback_unreachable (cars : list string) (num_lanes : Z)
    (g : rng) :
  NoDup cars → (2 ≤ num_lanes)%Z → (num_lanes < Z.of_nat (length cars))%Z →
  (∀ (u : gset (gset string)) m order,
     u ⊆ all_matchups cars → m :: order ≡ₚ elements u →
     ∃ heat_cars used_pairs,
       greedy_scan num_lanes (m :: order) ∅ ∅ = Done (heat_cars, used_pairs) ∧
       m ∈ used_pairs ∧ bool_decide (size heat_cars < 2) = false) ∧
  (∀ u, u ⊆ all_matchups cars → u ≠ ∅ →
     ∃ order g', set_iteration_order u g = Done (order, g') ∧ order ≠ []) ∧
  (∀ fuel st g', pairing_packer fuel cars num_lanes g = Done (st, g') →
     forced st = []) ∧
  (∃ st g', pairing_packer (size (all_matchups cars)) cars num_lanes g
              = Done (st, g') ∧ forced st = []).
Proof.
  intros Hcars Hnl Hmore. split_and!.
  - intros u m order Hu Hperm.
    destruct (greedy_scan_first num_lanes m order Hnl)
      as (hc & up & Hscan & Hm & _ & Hbig).
    { apply Forall_forall. intros m' Hm'.
      apply (all_matchups_sizes cars); [done|]. apply Hu.
      apply elem_of_elements. by rewrite <- Hperm. }
    exists hc, up. split_and!; [done..|]. apply bool_decide_eq_false_2. lia.
  - intros u Hu Hne.
    destruct (set_iteration_order_perm u g) as (order & g' & Horder & Hperm).
    exists order, g'. split; [done|]. intros ->. apply Hne.
    apply set_eq. intros x. rewrite <- elem_of_elements, <- Hperm. set_solver.
  - intros fuel st g' Hrun.
    apply rr_loop_forced in Hrun;
      [done|done|apply lane_labels_length|
       intros m; by apply all_matchups_sizes].
  - destruct (rr_loop_spec num_lanes (lane_labels num_lanes)
                (size (all_matchups cars))
                (RRState (all_matchups cars) [] 1 []) g)
      as (st & g' & Hloop & _ & Hforced & _);
      [done|apply lane_labels_length|
       intros m; by apply all_matchups_sizes|done|].
    by exists st, g'.
Qed.

Lemma forced_fallback_unreachable_witness :
  ∃ st g',
    pairing_packer (size (all_matchups ["C1"; "C2"; "C3"; "C4"]))
      ["C1"; "C2"; "C3"; "C4"] 3 (Rng (λ n, n) 0) = Done (st, g')
    ∧ forced st = [].
Proof.
  destruct (forced_fallback_unreachable ["C1"; "C2"; "C3"; "C4"] 3
              (Rng (λ n, n) 0)) as (_ & _ & _ & Hrun).
  - apply (bool_decide_unpack _). vm_compute. exact I.
  - lia.
  - simpl. lia.
  - exact Hrun.
Defined.

End PairingSpec.

Module OptimizerSpec.
Import RaceUtils ShuffleSpec.

(** ** The opponent-fairness optimizer *)

Definition cell (r : row) : Z * string := (Heat r, Lane r).
Definition seat (r : row) : Z * string := (Heat r, Car r).

Lemma set_Car_cells i c df : cell <$> set_Car i c df = cell <$> df.
Proof.
  unfold set_Car. revert i. induction df as [|r df IH]; intros [|i]; csimpl;
    f_equal; auto.
Qed.

Lemma set_Car_cars i c df : Car <$> set_Car i c df = <[i := c]> (Car <$> df).
Proof.
  unfold set_Car. revert i. induction df as [|r df IH]; intros [|i]; csimpl;
    f_equal; auto.
Qed.

Lemma set_Car_lookup i c df k :
  set_Car i c df !! k =
    if decide (i = k) then (λ r, Row (Heat r) c (Lane r)) <$> df !! i
    else df !! k.
Proof. apply list_lookup_alter. Qed.

Lemma indexed_filter_head (Q : nat * row → Prop) `{∀ ir, Decision (Q ir)}
    df i r rest :
  filter Q (indexed df) = (i, r) :: rest → df !! i = Some r ∧ Q (i, r).
Proof.
  intros Hf.
  assert ((i, r) ∈ filter Q (indexed df)) as Hin by (rewrite Hf; left).
  apply list_elem_of_filter in Hin as [HP Hin].
  apply elem_of_lookup_imap in Hin as (j & r' & [= -> ->] & Hj). done.
Qed.

(** What one proposal does: nothing, or the exchange of the cars of two
    rows that have the same lane and different heats, neither car being in
    the heat of the other. *)
Lemma propose_swap_cases h1 h2 lane df :
  propose_swap h1 h2 lane df = df ∨
  ∃ i1 i2 r1 r2,
    df !! i1 = Some r1 ∧ df !! i2 = Some r2 ∧
    Heat r1 = h1 ∧ Heat r2 = h2 ∧ Lane r1 = lane ∧ Lane r2 = lane ∧
    Car r2 ∉ Car <$> rows_where Heat h1 df ∧
    Car r1 ∉ Car <$> rows_where Heat h2 df ∧
    propose_swap h1 h2 lane df = set_Car i2 (Car r1) (set_Car i1 (Car r2) df).
Proof.
  unfold propose_swap.
  destruct (filter _ (indexed df)) as [|[i1 r1] rest1] eqn:E1; [by left|].
  destruct (filter (λ ir : nat * row, Heat (ir.2) = h2 ∧ Lane (ir.2) = lane)
              (indexed df)) as [|[i2 r2] rest2] eqn:E2; [by left|].
  apply indexed_filter_head in E1 as (Hi1 & Hh1 & Hl1).
  apply indexed_filter_head in E2 as (Hi2 & Hh2 & Hl2). simpl in *.
  case_bool_decide as Hok; [|by left]. right.
  rewrite !elem_of_list_to_set in Hok. destruct Hok as [Hok1 Hok2].
  exists i1, i2, r1, r2. split_and!; done.
Qed.

Lemma row_in_heat df i r :
  df !! i = Some r → Car r ∈ Car <$> rows_where Heat (Heat r) df.
Proof.
  intros Hi. apply list_elem_of_fmap. exists r. split; [done|].
  apply list_elem_of_filter. split; [done|]. by eapply list_elem_of_lookup_2.
Qed.

(** The frame of the optimizer: the cells (Heat, Lane) stay where they are,
    the cars are the same cars, and a table without a car twice in a heat
    stays so. *)
Record same_cells (df out : heat_table) : Prop := {
  cells_kept : cell <$> out = cell <$> df;
  cars_kept : Car <$> out ≡ₚ Car <$> df;
  seats_kept : NoDup (seat <$> df) → NoDup (seat <$> out)
}.

#[local] Instance same_cells_refl : Reflexive same_cells.
Proof. intros df. by split. Qed.

#[local] Instance same_cells_trans : Transitive same_cells.
Proof.
  intros a b c [H1 H2 H3] [K1 K2 K3]. split.
  - by rewrite K1.
  - by rewrite K2.
  - auto.
Qed.

Lemma swap_keeps_seats df i1 i2 r1 r2 :
  df !! i1 = Some r1 → df !! i2 = Some r2 →
  Car r2 ∉ Car <$> rows_where Heat (Heat r1) df →
  Car r1 ∉ Car <$> rows_where Heat (Heat r2) df →
  NoDup (seat <$> df) →
  NoDup (seat <$> set_Car i2 (Car r1) (set_Car i1 (Car r2) df)).
Proof.
  intros Hi1 Hi2 Hn1 Hn2 Hnd.
  assert (Heat r1 ≠ Heat r2) as Hheats.
  { intros Heq. apply Hn2. rewrite <- Heq. by eapply row_in_heat. }
  assert (i1 ≠ i2) as Hne by (intros ->; simplify_eq).
  assert (∀ k r, df !! k = Some r → Heat r = Heat r1 → Car r ≠ Car r2) as Hf1.
  { intros k r Hk Hh Hc. apply Hn1. rewrite <- Hc, <- Hh. by eapply row_in_heat. }
  assert (∀ k r, df !! k = Some r → Heat r = Heat r2 → Car r ≠ Car r1) as Hf2.
  { intros k r Hk Hh Hc. apply Hn2. rewrite <- Hc, <- Hh. by eapply row_in_heat. }
  assert (∀ k s,
            (seat <$> set_Car i2 (Car r1) (set_Car i1 (Car r2) df)) !! k = Some s →
            (k = i1 ∧ s = (Heat r1, Car r2)) ∨
            (k = i2 ∧ s = (Heat r2, Car r1)) ∨
            (k ≠ i1 ∧ k ≠ i2 ∧ ∃ r, df !! k = Some r ∧ s = seat r)) as Hlook.
  { intros k s. rewrite list_lookup_fmap, !set_Car_lookup.
    destruct (decide (i2 = k)) as [<-|].
    - rewrite decide_False by done. rewrite Hi2. simpl.
      intros [= <-]. right. left. done.
    - destruct (decide (i1 = k)) as [<-|].
      + rewrite Hi1. simpl. intros [= <-]. by left.
      + intros Hk. right. right. split_and!; [done..|].
        destruct (df !! k) as [r|]; simplify_eq/=. eauto. }
  apply NoDup_alt. intros a b s Ha Hb.
  apply Hlook in Ha, Hb.
  destruct Ha as [[-> Hsa]|[[-> Hsa]|(Ha1 & Ha2 & ra & Hra & Hsa)]];
    destruct Hb as [[-> Hsb]|[[-> Hsb]|(Hb1 & Hb2 & rb & Hrb & Hsb)]];
    try done; rewrite Hsa in Hsb; unfold seat in Hsb;
    injection Hsb as Hh Hc.
  - by destruct Hheats.
  - exfalso. by apply (Hf1 b rb).
  - by destruct Hheats.
  - exfalso. by apply (Hf2 b rb).
  - exfalso. by apply (Hf1 a ra).
  - exfalso. by apply (Hf2 a ra).
  - eapply NoDup_lookup; [exact Hnd|..]; rewrite list_lookup_fmap.
    + by rewrite Hra.
    + rewrite Hrb. unfold seat. simpl. by rewrite Hh, Hc.
Qed.

Lemma propose_swap_same_cells h1 h2 lane df :
  same_cells df (propose_swap h1 h2 lane df).
Proof.
  destruct (propose_swap_cases h1 h2 lane df)
    as [->|(i1 & i2 & r1 & r2 & Hi1 & Hi2 & <- & <- & Hl1 & Hl2
            & Hn1 & Hn2 & ->)]; [done|].
  split.
  - by rewrite !set_Car_cells.
  - rewrite !set_Car_cars.
    pose proof (swap_perm (Car <$> df) i1 i2) as Hsw. unfold swap in Hsw.
    rewrite !list_lookup_fmap, Hi1, Hi2 in Hsw. done.
  - by apply swap_keeps_seats.
Qed.

(** *** Opponent sets *)

(** The cars of a heat, as [set(heat["Car"])]. *)
Definition cars_of (df : heat_table) (h : Z) : gset string :=
  list_to_set (Car <$> rows_where Heat h df).

Lemma elem_of_cars_of df h c :
  c ∈ cars_of df h ↔ ∃ r, r ∈ df ∧ Heat r = h ∧ Car r = c.
Proof.
  unfold cars_of, rows_where.
  rewrite elem_of_list_to_set, list_elem_of_fmap. split.
  - intros (r & -> & [? ?]%list_elem_of_filter). by exists r.
  - intros (r & ? & ? & <-). exists r. split; [done|].
    by apply list_elem_of_filter.
Qed.

Lemma add_opponents_foldr (cars : gset string)
    (opp : gmap string (gset string)) (l : list string) c :
  NoDup l →
  foldr (λ car acc, <[car := default ∅ (acc !! car) ∪ (cars ∖ {[car]})]> acc)
    opp l !! c =
  if decide (c ∈ l) then Some (default ∅ (opp !! c) ∪ (cars ∖ {[c]}))
  else opp !! c.
Proof.
  induction 1 as [|a l Hnin Hnd IH]; cbn [foldr].
  - case_decide as Hin; [by apply elem_of_nil in Hin|done].
  - destruct (decide (c = a)) as [->|Hne].
    + rewrite lookup_insert_eq, IH.
      rewrite (decide_False (P := a ∈ l)) by done.
      by rewrite decide_True by left.
    + rewrite lookup_insert_ne by done. rewrite IH.
      destruct (decide (c ∈ l)) as [Hin|Hin].
      * by rewrite decide_True by by right.
      * rewrite decide_False; [done|]. by intros [?|?]%elem_of_cons.
Qed.

Lemma add_heat_opponents_lookup cars (opp : gmap string (gset string)) c :
  add_heat_opponents cars opp !! c =
  if decide (c ∈ cars) then Some (default ∅ (opp !! c) ∪ (cars ∖ {[c]}))
  else opp !! c.
Proof.
  unfold add_heat_opponents, set_fold. simpl.
  rewrite add_opponents_foldr by apply NoDup_elements.
  destruct (decide (c ∈ elements cars)) as [Hin|Hnin].
  - by rewrite decide_True by by apply elem_of_elements.
  - rewrite decide_False; [done|]. by rewrite <- elem_of_elements.
Qed.

(** The opponents after the heats [hs]: the keys are the cars of these
    heats, and the value of a car holds the other cars of its heats. *)
Definition opponents_of (df : heat_table) (hs : list Z)
    (opp : gmap string (gset string)) : Prop :=
  ∀ c,
    (is_Some (opp !! c) ↔ ∃ h, h ∈ hs ∧ c ∈ cars_of df h) ∧
    (∀ s, opp !! c = Some s →
       ∀ c', c' ∈ s ↔ c' ≠ c ∧ ∃ h, h ∈ hs ∧ c ∈ cars_of df h ∧ c' ∈ cars_of df h).

Lemma opponents_of_fold df hs :
  opponents_of df hs
    (foldl (λ opponents h, add_heat_opponents (cars_of df h) opponents) ∅ hs).
Proof.
  induction hs as [|h hs IH] using rev_ind.
  - intros c. simpl. rewrite lookup_empty. split.
    + split; [by intros [? ?]|]. intros (h & Hh%elem_of_nil & _). done.
    + done.
  - rewrite foldl_app. simpl.
    set (opp := foldl _ ∅ hs) in *. intros c.
    destruct (IH c) as [IHkey IHval].
    rewrite add_heat_opponents_lookup. split.
    + destruct (decide (c ∈ cars_of df h)) as [Hc|Hc].
      * split; [|by eauto]. intros _. exists h. split; [|done].
        apply elem_of_app. right. left.
      * rewrite IHkey. split.
        -- intros (h' & Hh' & Hc'). exists h'. split; [|done].
           apply elem_of_app. by left.
        -- intros (h' & [Hh' | ->%list_elem_of_singleton]%elem_of_app & Hc');
             [by exists h'|done].
    + intros s Hs c'. destruct (decide (c ∈ cars_of df h)) as [Hc|Hc].
      * injection Hs as <-. rewrite elem_of_union, elem_of_difference.
        rewrite elem_of_singleton. split.
        -- intros [Hold|[Hnew Hne]].
           ++ destruct (opp !! c) as [s0|] eqn:E; simpl in Hold; [|set_solver].
              apply (IHval s0 eq_refl) in Hold as (Hne & h' & Hh' & ? & ?).
              split; [done|]. exists h'. split_and!; [|done..].
              apply elem_of_app. by left.
           ++ split; [done|]. exists h. split_and!; [|done..].
              apply elem_of_app. right. left.
        -- intros (Hne & h' & [Hh' | ->%list_elem_of_singleton]%elem_of_app
                   & Hc1 & Hc2); [left|by right].
           destruct (opp !! c) as [s0|] eqn:E; simpl.
           ++ apply (IHval s0 eq_refl). split; [done|]. by exists h'.
           ++ exfalso. destruct (proj2 IHkey) as [? ?]; [by exists h'|done].
      * rewrite (IHval s Hs c'). split.
        -- intros (Hne & h' & Hh' & ? & ?). split; [done|].
           exists h'. split_and!; [|done..]. apply elem_of_app. by left.
        -- intros (Hne & h' & [Hh' | ->%list_elem_of_singleton]%elem_of_app
                   & Hc1 & Hc2); [|done].
           split; [done|]. by exists h'.
Qed.

Lemma analyze_opponents_keys df c :
  is_Some (analyze_opponents df !! c) ↔ c ∈ Car <$> df.
Proof.
  destruct (opponents_of_fold df (unique (Heat <$> df)) c) as [Hkey _].
  unfold analyze_opponents, cars_of in *. rewrite Hkey.
  rewrite list_elem_of_fmap. split.
  - intros (h & _ & (r & ? & ? & <-)%elem_of_cars_of). by exists r.
  - intros (r & -> & Hr). exists (Heat r). split.
    + apply elem_of_unique, list_elem_of_fmap. by exists r.
    + apply elem_of_cars_of. by exists r.
Qed.


Lemma dict_values_perm {K V} `{Countable K} (d : gmap K V) g :
  ∃ values g', dict_values d g = Done (values, g') ∧
               values ≡ₚ (map_to_list d).*2.
Proof.
  destruct (secure_shuffle_perm (map_to_list d) g) as (items & g' & Hsh & Hperm).
  exists (items.*2), g'. unfold dict_values.
  erewrite bind_Done by exact Hsh. split; [done|]. by rewrite Hperm.
Qed.

Section fairness.
Context {F : PyFloat}.

(** The score is computed on every table that has a row. *)
Lemma fairness_Done df g : df ≠ [] → ∃ s g', fairness df g = Done (s, g').
Proof.
  intros Hne. unfold fairness, opponent_fairness_score.
  destruct (dict_values_perm (analyze_opponents df) g)
    as (values & g' & Hvalues & Hperm).
  erewrite bind_Done by exact Hvalues.
  destruct values as [|opp values]; [|simpl; eauto].
  exfalso. apply Permutation_nil_l in Hperm. symmetry in Hperm.
  apply fmap_nil_inv, map_to_list_empty_iff in Hperm.
  destruct df as [|r df]; [done|].
  assert (is_Some (analyze_opponents (r :: df) !! Car r)) as [s Hs].
  { apply analyze_opponents_keys. left. }
  rewrite Hperm, lookup_empty in Hs. done.
Qed.

(** On the table without rows the division by the number of cars raises. *)
Lemma fairness_nil g : fairness [] g = Raise ZeroDivisionError.
Proof. done. Qed.

End fairness.

(** *** The search loop *)

Lemma lift_Done_inv {A} (o : outcome A) g a g' :
  lift o g = Done (a, g') → o = Done a ∧ g' = g.
Proof. unfold lift. destruct o; naive_solver. Qed.

Section loop.
Context {score_t : Type} (score : heat_table → M score_t).
Context (lt : score_t → score_t → Prop) `{!RelDecision lt}.

(** [scored df s]: [s] is a score that the code computes for the table
    [df]. *)
Definition scored (df : heat_table) (s : score_t) : Prop :=
  ∃ g g', score df g = Done (s, g').

(** The incumbent is only replaced by a proposal whose score compares
    strictly below its own, and every proposal keeps the cells. *)
Lemma optimize_loop_spec n lanes heats best_df best_score g df' s' g' :
  scored best_df best_score →
  optimize_loop score lt n lanes heats best_df best_score g
    = Done (df', s', g') →
  same_cells best_df df' ∧ scored df' s' ∧ rtc lt s' best_score.
Proof.
  revert best_df best_score g.
  induction n as [|n IH]; intros best_df best_score g Hscore; simpl.
  - intros [= <- <- <-]. done.
  - intros ([h1 h2] & g1 & _ & Hrun)%bind_Done_inv.
    apply bind_Done_inv in Hrun as (lane & g2 & _ & Hrun).
    apply bind_Done_inv in Hrun as (trial_score & g3 & Htrial & Hrun).
    case_bool_decide as Hlt.
    + apply IH in Hrun as (Hcells & Hs & Hrtc); [|by exists g2, g3].
      split_and!; [|done|].
      * etrans; [apply (propose_swap_same_cells h1 h2 lane)|done].
      * eapply rtc_r; done.
    + by apply IH in Hrun.
Qed.

Lemma optimize_with_spec heats_df iterations g df' g' :
  optimize_with score lt heats_df iterations g = Done (df', g') →
  same_cells heats_df df' ∧
  ∃ s0 g0 s', score heats_df g = Done (s0, g0) ∧ scored df' s' ∧ rtc lt s' s0.
Proof.
  unfold optimize_with.
  intros (s0 & g1 & Hs0 & Hrun)%bind_Done_inv.
  apply bind_Done_inv in Hrun as ([df1 s1] & g2 & Hloop & [= <- <-]).
  apply optimize_loop_spec in Hloop as (Hcells & Hs & Hrtc); [|by exists g, g1].
  split; [done|]. by exists s0, g1, s1.
Qed.

(** A chain of strict improvements, under a strict order, ends at the score
    it started from or strictly below it. *)
Lemma rtc_strict `{!StrictOrder lt} (a b : score_t) :
  rtc lt a b → (a = b ∨ lt a b) ∧ ¬ lt b a.
Proof.
  induction 1 as [a|a b c Hab _ [[<-|Hbc] Hcb]].
  - split; [by left|]. apply irreflexivity, _.
  - split; [by right|]. intros Hba. by apply (irreflexivity lt a); etrans.
  - split; [right; by etrans|]. intros Hca.
    apply Hcb. by etrans.
Qed.
End loop.

Lemma same_cells_length df out : same_cells df out → length out = length df.
Proof.
  intros [Hcells _ _]. apply (f_equal length) in Hcells.
  by rewrite !length_fmap in Hcells.
Qed.

Lemma random_sample2_Done (population : list Z) g :
  2 ≤ length population → ∃ p g', random_sample2 population g = Done (p, g').
Proof.
  intros Hlen. unfold random_sample2.
  rewrite bool_decide_eq_false_2 by lia.
  destruct (length population) as [|[|n]] eqn:E; [lia..|].
  erewrite bind_Done by apply randbelow_S. simpl.
  erewrite bind_Done by apply randbelow_S. eauto.
Qed.

Lemma random_choice_Done (seq : list string) g :
  seq ≠ [] → ∃ x g', random_choice seq g = Done (x, g').
Proof.
  intros Hne. destruct seq as [|x seq]; [done|]. unfold random_choice.
  erewrite bind_Done by apply randbelow_S. eauto.
Qed.

Section optimizer_runs.
Context {F : PyFloat}.

Lemma optimize_loop_Done n lanes heats best_df best_score g :
  2 ≤ length heats → lanes ≠ [] → best_df ≠ [] →
  ∃ r g', optimize_loop fairness float_lt n lanes heats best_df best_score g
          = Done (r, g').
Proof.
  intros Hheats Hlanes. revert best_df best_score g.
  induction n as [|n IH]; intros best_df best_score g Hne; simpl; [eauto|].
  destruct (random_sample2_Done heats g Hheats) as ([h1 h2] & g1 & Hsample).
  erewrite bind_Done by exact Hsample.
  destruct (random_choice_Done lanes g1 Hlanes) as (lane & g2 & Hchoice).
  erewrite bind_Done by exact Hchoice.
  assert (propose_swap h1 h2 lane best_df ≠ []) as Hne'.
  { pose proof (same_cells_length _ _ (propose_swap_same_cells h1 h2 lane best_df))
      as Hlen. destruct best_df; [done|]. by destruct (propose_swap _ _ _ _). }
  destruct (fairness_Done _ g2 Hne') as (ts & g3 & Hts).
  erewrite bind_Done by exact Hts.
  case_bool_decide; by apply IH.
Qed.

(** The optimizer returns on every table with two heats or more, and on
    every table that is not empty when the budget is zero. *)
Lemma optimize_opponent_fairness_Done heats_df iterations g :
  heats_df ≠ [] →
  (iterations ≤ 0)%Z ∨ 2 ≤ length (unique (Heat <$> heats_df)) →
  ∃ df' g', optimize_opponent_fairness heats_df iterations g = Done (df', g').
Proof.
  intros Hne Hcase. unfold optimize_opponent_fairness, optimize_with.
  destruct (fairness_Done heats_df g Hne) as (s0 & g0 & Hs0).
  erewrite bind_Done by exact Hs0.
  destruct Hcase as [Hzero|Hheats].
  - replace (Z.to_nat iterations) with 0 by lia. simpl.
    unfold mbind, M_bind, mret, M_ret. eauto.
  - destruct (optimize_loop_Done (Z.to_nat iterations)
                (unique (Lane <$> heats_df)) (unique (Heat <$> heats_df))
                heats_df s0 g0 Hheats) as ([df' s'] & g' & Hloop).
    + destruct heats_df; [done|]. done.
    + done.
    + erewrite bind_Done by exact Hloop. unfold mret, M_ret. eauto.
Qed.

End optimizer_runs.

(** C4. Whatever the float arithmetic (with [<] a strict order, as on
    binary64), the table, the budget (zero or more) and the tape: when
    [optimize_opponent_fairness] returns a table, the score [s0] it computed
    for the input at the start and the score [s'] it computed for the table
    it returns, at the moment it made it the incumbent, satisfy [s' <= s0]:
    [s'] is [s0] or [s' < s0], and [s0 < s'] does not hold. The optimizer
    does return on every table with two heats or more. *)
Theorem optimizer_never_worsens {F : PyFloat} (heats_df : heat_table)
    (iterations : Z) (g : rng) :
  (0 ≤ iterations)%Z →
  (∀ df' g',
     optimize_opponent_fairness heats_df iterations g = Done (df', g') →
     ∃ s0 g0 s' ga gb,
       fairness heats_df g = Done (s0, g0) ∧ fairness df' ga = Done (s', gb) ∧
       float_le s' s0 ∧ ¬ float_lt s0 s') ∧
  (2 ≤ length (unique (Heat <$> heats_df)) →
   ∃ df' g', optimize_opponent_fairness heats_df iterations g = Done (df', g')).
Proof.
  intros _. split.
  - intros df' g' Hrun.
    apply optimize_with_spec in Hrun
      as (_ & s0 & g0 & s' & Hs0 & (ga & gb & Hs') & Hrtc).
    apply rtc_strict in Hrtc as [Hle Hnlt]; [|apply _].
    by exists s0, g0, s', ga, gb.
  - intros Hheats. apply optimize_opponent_fairness_Done; [|by right].
    intros ->. simpl in Hheats. lia.
Qed.

Definition three_pairs : heat_table :=
  [Row 1 "A" "L1"; Row 1 "B" "L2"; Row 2 "A" "L1"; Row 2 "C" "L2";
   Row 3 "B" "L1"; Row 3 "C" "L2"; Row 3 "D" "L3"].

Lemma optimizer_never_worsens_witness :
  ∃ df' g',
    optimize_opponent_fairness (F := exact_floats) three_pairs 20
      (Rng (λ n, n) 0) = Done (df', g').
Proof.
  apply (optimizer_never_worsens (F := exact_floats) three_pairs 20
           (Rng (λ n, n) 0)).
  - lia.
  - vm_compute. lia.
Defined.

(** C7. A table returned by [optimize_opponent_fairness] has the rows of
    the input in number and, row by row, the same Heat and the same Lane, so
    every (Heat, Lane) cell of the input is a cell of the output at the same
    place; its cars are the cars of the input, each as often; and if no heat
    of the input has a car twice, no heat of the output has. Every proposal
    of the search is the input of the proposal or exchanges the cars of two
    rows of one lane and two heats. *)
Theorem optimizer_preserves_structure {F : PyFloat} (heats_df : heat_table)
    (iterations : Z) (g : rng) (df' : heat_table) (g' : rng) :
  optimize_opponent_fairness heats_df iterations g = Done (df', g') →
  length df' = length heats_df ∧
  (λ r, (Heat r, Lane r)) <$> df' = (λ r, (Heat r, Lane r)) <$> heats_df ∧
  Car <$> df' ≡ₚ Car <$> heats_df ∧
  (NoDup ((λ r, (Heat r, Car r)) <$> heats_df) →
   NoDup ((λ r, (Heat r, Car r)) <$> df')) ∧
  (∀ h1 h2 lane df,
     propose_swap h1 h2 lane df = df ∨
     ∃ i1 i2 r1 r2,
       df !! i1 = Some r1 ∧ df !! i2 = Some r2 ∧
       Lane r1 = lane ∧ Lane r2 = lane ∧ Heat r1 ≠ Heat r2 ∧
       propose_swap h1 h2 lane df
         = set_Car i2 (Car r1) (set_Car i1 (Car r2) df)).
Proof.
  intros Hrun.
  apply optimize_with_spec in Hrun as (Hcells & _).
  split_and!.
  - by apply same_cells_length.
  - apply Hcells.
  - apply Hcells.
  - apply Hcells.
  - intros h1 h2 lane df.
    destruct (propose_swap_cases h1 h2 lane df)
      as [?|(i1 & i2 & r1 & r2 & Hi1 & Hi2 & <- & <- & Hl1 & Hl2
             & Hn1 & Hn2 & Heq)]; [by left|right].
    exists i1, i2, r1, r2. split_and!; [done..| |done].
    intros Hh. apply Hn2. rewrite <- Hh. by eapply row_in_heat.
Qed.

Lemma optimizer_preserves_structure_witness :
  ∃ df' g',
    optimize_opponent_fairness (F := exact_floats) three_pairs 20
      (Rng (λ n, n) 0) = Done (df', g')
    ∧ length df' = 7.
Proof.
  destruct (optimize_opponent_fairness (F := exact_floats) three_pairs 20
              (Rng (λ n, n) 0))
    as [[df' g']| |] eqn:Hrun.
  - exists df', g'. split; [done|].
    by destruct (optimizer_preserves_structure (F := exact_floats) _ _ _ _ _ Hrun)
      as [-> _].
  - exfalso. vm_compute in Hrun. discriminate.
  - exfalso. vm_compute in Hrun. discriminate.
Defined.

End OptimizerSpec.

Module RebalanceSpec.
Import RaceUtils.

(** ** The slot rebalancer *)

(** The number of rows of a heat, as Python compares it with [num_lanes]. *)
Definition heat_size (df : heat_table) (h : Z) : Z :=
  Z.of_nat (length (rows_where Heat h df)).

#[local] Instance rows_where_perm {K} `{EqDecision K} (key : row → K) k :
  Proper ((≡ₚ) ==> (≡ₚ)) (rows_where key k).
Proof. intros df1 df2 Hperm. unfold rows_where. by rewrite Hperm. Qed.

#[local] Instance heat_size_perm : Proper ((≡ₚ) ==> (=) ==> (=)) heat_size.
Proof. intros df1 df2 Hperm h ? <-. unfold heat_size. by rewrite Hperm. Qed.

Lemma alter_perm {A} (f : A → A) (l : list A) i x :
  l !! i = Some x → alter f i l ≡ₚ f x :: delete i l.
Proof.
  revert i. induction l as [|a l IH]; intros [|i] Hi; simplify_eq/=; [done|].
  rewrite (IH i Hi). apply perm_swap.
Qed.

Lemma sort_values_perm df : sort_values df ≡ₚ df.
Proof. apply merge_sort_Permutation. Qed.

Lemma indexed_lookup df i r : (i, r) ∈ indexed df ↔ df !! i = Some r.
Proof.
  unfold indexed. rewrite elem_of_lookup_imap. split.
  - by intros (j & r' & [= -> ->] & Hj).
  - intros Hi. by exists i, r.
Qed.

Lemma imap_filter_rows (P : row → Prop) `{∀ r, Decision (P r)}
    (f : nat → row → nat * row) df :
  (∀ i r, (f i r).2 = r) →
  (filter (λ ir : nat * row, P (ir.2)) (imap f df)).*2 = filter P df.
Proof.
  revert f. induction df as [|r df IH]; intros f Hf; [done|].
  cbn [imap]. rewrite !filter_cons. rewrite Hf.
  destruct (decide (P r)); csimpl; rewrite ?Hf, IH by (intros; apply Hf); done.
Qed.

Lemma indexed_filter_rows (P : row → Prop) `{∀ r, Decision (P r)} df :
  (filter (λ ir : nat * row, P (ir.2)) (indexed df)).*2 = filter P df.
Proof. by apply imap_filter_rows. Qed.

Lemma find_move_Some donor_heat uc ul idx :
  find_move donor_heat uc ul = Some idx →
  ∃ r, (idx, r) ∈ donor_heat ∧ Car r ∉ uc ∧ Lane r ∉ ul.
Proof.
  induction donor_heat as [|[i r] l IH]; simpl; [done|].
  case_bool_decide as Hok.
  - intros [= ->]. exists r. split; [left|done].
  - intros (r' & ? & ?)%IH. exists r'. split; [by right|done].
Qed.

(** One relocation: a row [r] of a full heat goes to the heat [t] of size
    [num_lanes - 2], where its car and its lane are free; nothing else
    changes but the order of the rows. *)
Definition relocation (nl : Z) (t : Z) (r : row) (cur new : heat_table) : Prop :=
  ∃ rest,
    cur ≡ₚ r :: rest ∧ new ≡ₚ Row t (Car r) (Lane r) :: rest ∧
    Heat r ≠ t ∧
    heat_size cur (Heat r) = nl ∧ heat_size cur t = (nl - 2)%Z ∧
    Car r ∉ Car <$> rows_where Heat t cur ∧
    Lane r ∉ Lane <$> rows_where Heat t cur.

Lemma search_donors_cases df nl t (uc ul : gset string) donors :
  search_donors df nl t uc ul donors = df ∨
  ∃ idx r,
    df !! idx = Some r ∧ Heat r ≠ t ∧ heat_size df (Heat r) = nl ∧
    Car r ∉ uc ∧ Lane r ∉ ul ∧
    search_donors df nl t uc ul donors = sort_values (set_Heat idx t df).
Proof.
  induction donors as [|d donors IH]; simpl; [by left|].
  case_bool_decide as Hself; [done|].
  case_bool_decide as Hfull; [done|].
  destruct (find_move _ uc ul) as [idx|] eqn:Hfind; [|done]. right.
  apply find_move_Some in Hfind as (r & Hin & Hcar & Hlane).
  apply list_elem_of_filter in Hin as [Hd Hin]. simpl in Hd.
  apply indexed_lookup in Hin.
  exists idx, r. split_and!; [done|congruence| |done..].
  rewrite <- Hfull. unfold heat_size, rows_where. subst d.
  by rewrite <- (indexed_filter_rows (λ r0, Heat r0 = Heat r)), length_fmap.
Qed.

Lemma rebalance_heat_cases nl hs df t :
  rebalance_heat nl hs df t = df ∨
  ∃ r, relocation nl t r df (rebalance_heat nl hs df t).
Proof.
  unfold rebalance_heat. case_bool_decide as Hsize; [by left|].
  destruct (search_donors_cases df nl t
              (list_to_set (Car <$> rows_where Heat t df))
              (list_to_set (Lane <$> rows_where Heat t df)) hs)
    as [->|(idx & r & Hidx & Hne & Hfull & Hcar & Hlane & ->)]; [by left|].
  right. exists r, (delete idx df).
  rewrite elem_of_list_to_set in Hcar, Hlane.
  split_and!; [|unfold set_Heat;
    by rewrite sort_values_perm, (alter_perm _ _ _ _ Hidx)|done..].
  by apply delete_Permutation.
Qed.

Lemma heat_size_cons r df h :
  heat_size (r :: df) h =
  ((if decide (Heat r = h) then 1 else 0) + heat_size df h)%Z.
Proof.
  unfold heat_size, rows_where. rewrite filter_cons.
  destruct (decide (Heat r = h)); simpl; lia.
Qed.

Lemma relocation_sizes nl t r cur new :
  relocation nl t r cur new →
  heat_size new t = (nl - 1)%Z ∧ heat_size new (Heat r) = (nl - 1)%Z ∧
  ∀ h, h ≠ t → h ≠ Heat r → heat_size new h = heat_size cur h.
Proof.
  intros (rest & Hcur & Hnew & Hne & Hfull & Hshort & _).
  rewrite Hcur in Hfull, Hshort. rewrite heat_size_cons in Hfull, Hshort.
  rewrite decide_True in Hfull by done. rewrite decide_False in Hshort by done.
  split_and!.
  - rewrite Hnew, heat_size_cons. simpl. rewrite decide_True by done. lia.
  - rewrite Hnew, heat_size_cons. simpl. rewrite decide_False by done. lia.
  - intros h Hh1 Hh2. rewrite Hnew, Hcur, !heat_size_cons. simpl.
    by rewrite !decide_False by done.
Qed.

(** A relocation keeps every heat free of a repeated car and of a repeated
    lane. *)
Lemma relocation_NoDup (key : row → string) nl t r cur new :
  (key = Car ∨ key = Lane) →
  relocation nl t r cur new →
  ∀ h, NoDup (key <$> rows_where Heat h cur) →
       NoDup (key <$> rows_where Heat h new).
Proof.
  intros Hkey (rest & Hcur & Hnew & Hne & _ & _ & Hcar & Hlane) h.
  rewrite Hcur in Hcar, Hlane. rewrite Hnew, Hcur.
  rewrite !rows_where_cons. rewrite !rows_where_cons in Hcar, Hlane.
  rewrite decide_False in Hcar, Hlane by done. simpl.
  destruct (decide (t = h)) as [->|Hth].
  - rewrite decide_False by done. intros Hnd. csimpl.
    apply NoDup_cons. split; [|done]. by destruct Hkey as [-> | ->].
  - destruct (decide (Heat r = h)); [|done].
    csimpl. by intros [_ ?]%NoDup_cons.
Qed.

(** *** The rows before and after *)

Definition moved (p : row * row) : Prop := Heat (p.1) ≠ Heat (p.2).

#[local] Instance moved_dec p : Decision (moved p).
Proof. unfold moved. apply _. Defined.

(** [pairs] matches every row of the input table with the row it has become
    in the current table. *)
Record trace (nl : Z) (df_in df_cur : heat_table) (pairs : list (row * row))
    : Prop := {
  trace_in : pairs.*1 ≡ₚ df_in;
  trace_cur : pairs.*2 ≡ₚ df_cur;
  trace_rows :
    ∀ a b, (a, b) ∈ pairs →
      Car a = Car b ∧ Lane a = Lane b ∧
      (Heat a ≠ Heat b →
       heat_size df_in (Heat b) = (nl - 2)%Z ∧ heat_size df_in (Heat a) = nl ∧
       heat_size df_cur (Heat b) = (nl - 1)%Z ∧
       heat_size df_cur (Heat a) = (nl - 1)%Z);
  trace_sizes :
    ∀ h, heat_size df_cur h = heat_size df_in h ∨
         heat_size df_cur h = (nl - 1)%Z;
  trace_targets : NoDup ((Heat ∘ snd) <$> filter moved pairs);
  trace_donors : NoDup ((Heat ∘ fst) <$> filter moved pairs)
}.

Lemma trace_start nl df : trace nl df df ((λ r, (r, r)) <$> df).
Proof.
  assert (filter moved ((λ r, (r, r)) <$> df) = []) as Hnone.
  { induction df as [|r df IH]; [done|]. csimpl.
    rewrite filter_cons_False; [done|]. unfold moved. simpl. tauto. }
  split.
  - rewrite <- list_fmap_compose. apply reflexive_eq, list_fmap_id.
  - rewrite <- list_fmap_compose. apply reflexive_eq, list_fmap_id.
  - intros a b (r & [= -> ->] & _)%list_elem_of_fmap. split_and!; done.
  - by left.
  - rewrite Hnone. constructor.
  - rewrite Hnone. constructor.
Qed.

Lemma trace_step nl df_in cur new pairs t r :
  trace nl df_in cur pairs → relocation nl t r cur new →
  ∃ pairs', trace nl df_in new pairs'.
Proof.
  intros [Hin Hcur Hrows Hsizes Htargets Hdonors] Hreloc.
  destruct (relocation_sizes _ _ _ _ _ Hreloc) as (Hnt & Hnd & Hother).
  destruct Hreloc as (rest & Hcur' & Hnew & Hne & Hfull & Hshort & _).
  assert (r ∈ pairs.*2) as Hr by (rewrite Hcur, Hcur'; left).
  apply list_elem_of_fmap in Hr as ([a r0] & -> & Hpair). cbn [fst snd] in *.
  destruct (Hrows a r0 Hpair) as (Hcar & Hlane & Hmoved).
  assert (Heat a = Heat r0) as Hsame.
  { destruct (decide (Heat a = Heat r0)) as [|Hm]; [done|].
    destruct (Hmoved Hm) as (_ & _ & Hsz & _). lia. }
  apply list_elem_of_split in Hpair as (p1 & p2 & ->).
  assert (∀ a' b', (a', b') ∈ p1 ++ p2 → (a', b') ∈ p1 ++ (a, r0) :: p2) as Hold.
  { intros a' b'. rewrite !elem_of_app, elem_of_cons. tauto. }
  assert (∀ p, p ∈ filter moved (p1 ++ p2) →
               heat_size cur (Heat (p.2)) = (nl - 1)%Z ∧
               heat_size cur (Heat (p.1)) = (nl - 1)%Z) as Hmv.
  { intros [a' b'] [Hm Hp]%list_elem_of_filter.
    destruct (Hrows a' b' (Hold _ _ Hp)) as (_ & _ & Hsz).
    destruct (Hsz Hm) as (_ & _ & ? & ?). done. }
  assert (∀ h, heat_size cur h = (nl - 1)%Z → heat_size new h = (nl - 1)%Z)
    as Hkeep.
  { intros h Hh. rewrite Hother; [done|intros ->; lia|intros ->; lia]. }
  rewrite filter_app, filter_cons_False in Htargets, Hdonors
    by (unfold moved; simpl; tauto).
  rewrite <- filter_app in Htargets, Hdonors.
  exists (p1 ++ (a, Row t (Car r0) (Lane r0)) :: p2). split.
  - rewrite <- Hin. by rewrite !fmap_app, !fmap_cons.
  - rewrite Hnew. rewrite fmap_app, fmap_cons. simpl.
    rewrite <- Permutation_middle. f_equiv.
    rewrite fmap_app, fmap_cons, <- Permutation_middle in Hcur. simpl in Hcur.
    rewrite Hcur' in Hcur. by apply Permutation_cons_inv in Hcur.
  - intros a' b'. rewrite elem_of_app, elem_of_cons.
    intros [Hp|[[= -> ->]|Hp]].
    + destruct (Hrows a' b') as (? & ? & Hsz); [apply Hold, elem_of_app; by left|].
      split_and!; [done..|]. intros Hm. destruct (Hsz Hm) as (? & ? & ? & ?).
      split_and!; [done..| |]; by apply Hkeep.
    + simpl. split_and!; [done..|]. intros _.
      destruct (Hsizes t), (Hsizes (Heat r0)); rewrite Hsame;
        split_and!; (done || lia).
    + destruct (Hrows a' b') as (? & ? & Hsz); [apply Hold, elem_of_app; by right|].
      split_and!; [done..|]. intros Hm. destruct (Hsz Hm) as (? & ? & ? & ?).
      split_and!; [done..| |]; by apply Hkeep.
  - intros h. destruct (decide (h = t)) as [->|]; [by right|].
    destruct (decide (h = Heat r0)) as [->|]; [by right|].
    rewrite Hother by done. apply Hsizes.
  - rewrite filter_app, filter_cons_True by (unfold moved; simpl; congruence).
    rewrite fmap_app, fmap_cons. simpl.
    apply NoDup_app. rewrite filter_app, fmap_app in Htargets.
    apply NoDup_app in Htargets as (N1 & N2 & N3).
    split_and!; [done| |].
    + intros h Hh1 [->|Hh2]%elem_of_cons; [|by eapply N2].
      apply list_elem_of_fmap in Hh1 as (p & Hp & Hin1). simpl in Hp.
      destruct (Hmv p) as [Hsz _];
        [rewrite filter_app; apply elem_of_app; by left|].
      rewrite <- Hp in Hsz. lia.
    + apply NoDup_cons. split; [|done].
      intros (p & Hp & Hin2)%list_elem_of_fmap. simpl in Hp.
      destruct (Hmv p) as [Hsz _];
        [rewrite filter_app; apply elem_of_app; by right|].
      rewrite <- Hp in Hsz. lia.
  - rewrite filter_app, filter_cons_True by (unfold moved; simpl; congruence).
    rewrite fmap_app, fmap_cons. simpl.
    apply NoDup_app. rewrite filter_app, fmap_app in Hdonors.
    apply NoDup_app in Hdonors as (N1 & N2 & N3).
    split_and!; [done| |].
    + intros h Hh1 [->|Hh2]%elem_of_cons; [|by eapply N2].
      apply list_elem_of_fmap in Hh1 as (p & Hp & Hin1). simpl in Hp.
      destruct (Hmv p) as [_ Hsz];
        [rewrite filter_app; apply elem_of_app; by left|].
      rewrite <- Hp, Hsame in Hsz. lia.
    + apply NoDup_cons. split; [|done].
      intros (p & Hp & Hin2)%list_elem_of_fmap. simpl in Hp.
      destruct (Hmv p) as [_ Hsz];
        [rewrite filter_app; apply elem_of_app; by right|].
      rewrite <- Hp, Hsame in Hsz. lia.
Qed.

Lemma rebalance_fold_trace nl hs0 hs df_in cur pairs :
  trace nl df_in cur pairs →
  ∃ pairs', trace nl df_in (foldl (rebalance_heat nl hs0) cur hs) pairs'.
Proof.
  revert cur pairs. induction hs as [|t hs IH]; intros cur pairs Htrace; simpl.
  - by exists pairs.
  - destruct (rebalance_heat_cases nl hs0 cur t) as [->|[r Hreloc]].
    + by apply (IH cur pairs).
    + destruct (trace_step _ _ _ _ _ _ _ Htrace Hreloc) as [pairs' Htrace'].
      by apply (IH _ pairs').
Qed.

Lemma rebalance_fold_NoDup (key : row → string) nl hs0 hs cur h :
  (key = Car ∨ key = Lane) →
  NoDup (key <$> rows_where Heat h cur) →
  NoDup (key <$> rows_where Heat h (foldl (rebalance_heat nl hs0) cur hs)).
Proof.
  intros Hkey. revert cur. induction hs as [|t hs IH]; intros cur Hnd; simpl.
  - done.
  - apply IH.
    destruct (rebalance_heat_cases nl hs0 cur t) as [->|[r Hreloc]]; [done|].
    by eapply relocation_NoDup.
Qed.

(** C6. The table returned by [rebalance_heats] has as many rows as the
    input; a heat without a repeated car (lane) in the input has none in the
    output; and the rows of the output are the rows of the input one for one,
    with the same Car and the same Lane, the Heat being changed only for
    rows taken from a heat of exactly [num_lanes] rows and put into a heat of
    exactly [num_lanes - 2] rows of the input. No heat receives two rows and
    no heat gives two. *)
Theorem rebalance_frame (heats_df : heat_table) (num_lanes : Z) :
  let out := rebalance_heats heats_df num_lanes in
  length out = length heats_df ∧
  (∀ h, NoDup (Car <$> rows_where Heat h heats_df) →
        NoDup (Car <$> rows_where Heat h out)) ∧
  (∀ h, NoDup (Lane <$> rows_where Heat h heats_df) →
        NoDup (Lane <$> rows_where Heat h out)) ∧
  ∃ pairs : list (row * row),
    pairs.*1 ≡ₚ heats_df ∧ pairs.*2 ≡ₚ out ∧
    (∀ a b, (a, b) ∈ pairs →
       Car a = Car b ∧ Lane a = Lane b ∧
       (Heat a ≠ Heat b →
        heat_size heats_df (Heat b) = (num_lanes - 2)%Z ∧
        heat_size heats_df (Heat a) = num_lanes)) ∧
    NoDup ((Heat ∘ snd) <$> filter moved pairs) ∧
    NoDup ((Heat ∘ fst) <$> filter moved pairs).
Proof.
  intros out. unfold out, rebalance_heats.
  destruct (rebalance_fold_trace num_lanes (unique (Heat <$> heats_df))
              (unique (Heat <$> heats_df)) heats_df heats_df _
              (trace_start num_lanes heats_df))
    as [pairs [Hin Hcur Hrows Hsizes Htargets Hdonors]].
  split_and!.
  - rewrite <- Hcur, <- Hin at 1. by rewrite !length_fmap.
  - intros h. apply rebalance_fold_NoDup. by left.
  - intros h. apply rebalance_fold_NoDup. by right.
  - exists pairs. split_and!; [done..| |done|done].
    intros a b Hab. destruct (Hrows a b Hab) as (? & ? & Hm).
    split_and!; [done..|]. intros Hne. by destruct (Hm Hne) as (? & ? & _).
Qed.

(** The scenario of the tests: a heat of two rows on a track of four lanes
    receives a row of the full heat. *)
Example rebalance_underfilled_heat :
  rebalance_heats
    [Row 1 "A" "L1"; Row 1 "B" "L2"; Row 1 "C" "L3"; Row 1 "D" "L4";
     Row 2 "E" "L1"; Row 2 "F" "L2"] 4
  = [Row 1 "A" "L1"; Row 1 "B" "L2"; Row 1 "D" "L4";
     Row 2 "E" "L1"; Row 2 "F" "L2"; Row 2 "C" "L3"].
Proof. vm_compute. reflexivity. Qed.

End RebalanceSpec.



Module DriverSpec.
Import RaceUtils HeatsPerfect HeatsRunoff.

(** ** The generation drivers *)

Section drivers.
Context {F : PyFloat}.

(** The two drivers: the main program of heats_perfect.py, with its way to
    write a sheet, and the one of heats_runoff.py. *)
Inductive driver :=
  | PerfectN (write_ok : string → string → heat_table → bool) (lanes runs : Z)
  | RoundRobin (num_lanes : Z).

(** One generation attempt of a driver for the cars of a group. *)
Definition attempt (d : driver) (cars : list string) : M heat_table :=
  match d with
  | PerfectN _ lanes runs => generate_heats cars lanes (Some runs)
  | RoundRobin num_lanes => generate_round_robin_heats cars num_lanes
  end.

(** The validation the driver applies to the table of an attempt. The
    round-robin validator raises on the frame without columns. *)
Definition accepts (d : driver) (cars : list string) (df : heat_table)
    : outcome bool :=
  match d with
  | PerfectN _ lanes runs =>
      Done (validate_heats df runs default_min_cars_per_heat (Some cars))
  | RoundRobin num_lanes =>
      validate_runoff_heats df (all_matchups cars) (Some cars) (Some num_lanes)
  end.

Definition run_group (d : driver) (grp : group) : M (list event) :=
  match d with
  | PerfectN write_ok lanes runs => perfect_group write_ok lanes runs grp
  | RoundRobin num_lanes =>
      process_class_group (g_class grp) (g_group grp) (g_cars grp) num_lanes
  end.

Definition run_groups (d : driver) (groups : list group) : M (list event) :=
  match d with
  | PerfectN write_ok lanes runs => perfect_groups write_ok lanes runs groups
  | RoundRobin num_lanes => process_groups num_lanes groups
  end.

(** [all_rejected n d cars g] is the tape left by [n] attempts in a row,
    from the tape [g], when each of them returns a table and validation
    returns [False] on each of these tables. *)
Fixpoint all_rejected (n : nat) (d : driver) (cars : list string) (g : rng)
    : option rng :=
  match n with
  | O => Some g
  | S n =>
      match attempt d cars g with
      | Done (df, g') =>
          match accepts d cars df with
          | Done false => all_rejected n d cars g'
          | _ => None
          end
      | _ => None
      end
  end.

Lemma perfect_attempts_exhausted n write_ok cls grp cars lanes runs g g' :
  all_rejected n (PerfectN write_ok lanes runs) cars g = Some g' →
  perfect_attempts n write_ok cls grp cars lanes runs g
    = Done ([Generation_failed cls grp], g').
Proof.
  revert g. induction n as [|n IH]; intros g; simpl.
  - by intros [= ->].
  - unfold mbind, M_bind.
    destruct (generate_heats cars lanes (Some runs) g) as [[df g1]| |]; [|done..].
    destruct (validate_heats _ _ _ _); [done|]. apply IH.
Qed.

Lemma runoff_attempts_exhausted n cars num_lanes g g' :
  all_rejected n (RoundRobin num_lanes) cars g = Some g' →
  runoff_attempts n cars num_lanes (all_matchups cars) g = Done (None, g').
Proof.
  revert g. induction n as [|n IH]; intros g; simpl.
  - by intros [= ->].
  - unfold mbind, M_bind.
    destruct (generate_round_robin_heats cars num_lanes g) as [[df g1]| |];
      [|done..].
    unfold lift. destruct (validate_runoff_heats _ _ _ _) as [[|]| |]; [done| |done..].
    apply IH.
Qed.

Lemma run_groups_cons d grp groups g :
  run_groups d (grp :: groups) g =
  (evs ← run_group d grp; evs' ← run_groups d groups; mret (evs ++ evs')) g.
Proof. by destruct d. Qed.

Lemma run_groups_nil d g : run_groups d [] g = Done ([], g).
Proof. by destruct d. Qed.

(** The groups are processed one after the other: the events of a list of
    groups are those of its first part followed by those of the rest, run
    from the tape the first part leaves. *)
Lemma run_groups_app d before after g evs g1 :
  run_groups d before g = Done (evs, g1) →
  run_groups d (before ++ after) g =
  match run_groups d after g1 with
  | Done (evs', g2) => Done (evs ++ evs', g2)
  | Raise e => Raise e
  | OutOfFuel => OutOfFuel
  end.
Proof.
  revert g evs. induction before as [|grp before IH]; intros g evs.
  - rewrite run_groups_nil. intros [= <- <-]. simpl.
    by destruct (run_groups d after g) as [[? ?]| |].
  - simpl. rewrite !run_groups_cons. unfold mbind, M_bind.
    destruct (run_group d grp g) as [[evs0 g0]| |]; [|done..].
    destruct (run_groups d before g0) as [[evs1 g2]| |] eqn:Hrest; [|done..].
    intros [= <- <-]. rewrite (IH _ _ Hrest).
    destruct (run_groups d after g2) as [[evs2 g3]| |]; [|done..].
    unfold mret, M_ret. by rewrite app_assoc.
Qed.

End drivers.

(** C9. When the 200 attempts for a group each return a table on which
    validation returns [False], the driver returns for that group (it does not
    raise), its only event is the report of the failure, no sheet is
    written, and the run goes on with the groups that follow, from the tape
    the attempts left: the events of the groups before are kept and those of
    the groups after are what they are without the failed group. *)
Theorem exhaustion_is_reported {F : PyFloat} (d : driver)
    (before after : list group)
    (grp : group) (g0 g1 g2 g3 : rng) (evs : list event) (cars : list string) :
  run_groups d before g0 = Done (evs, g1) →
  secure_shuffle (g_cars grp) g1 = Done (cars, g2) →
  2 ≤ length cars →
  all_rejected max_attempts d cars g2 = Some g3 →
  run_group d grp g1
    = Done ([Generation_failed (g_class grp) (g_group grp)], g3) ∧
  run_groups d (before ++ grp :: after) g0 =
    match run_groups d after g3 with
    | Done (evs', g4) =>
        Done (evs ++ Generation_failed (g_class grp) (g_group grp) :: evs', g4)
    | Raise e => Raise e
    | OutOfFuel => OutOfFuel
    end.
Proof.
  intros Hbefore Hshuffle Hcars Hrejected.
  assert (run_group d grp g1
          = Done ([Generation_failed (g_class grp) (g_group grp)], g3)) as Hgrp.
  { destruct d as [write_ok lanes runs|num_lanes]; simpl.
    - unfold perfect_group. erewrite bind_Done by exact Hshuffle.
      rewrite bool_decide_eq_false_2 by lia.
      by apply perfect_attempts_exhausted.
    - unfold process_class_group. erewrite bind_Done by exact Hshuffle.
      rewrite bool_decide_eq_false_2 by lia.
      erewrite bind_Done by (apply runoff_attempts_exhausted; exact Hrejected).
      done. }
  split; [done|].
  rewrite (run_groups_app _ _ _ _ _ _ Hbefore), run_groups_cons.
  unfold mbind, M_bind. rewrite Hgrp.
  by destruct (run_groups d after g3) as [[evs' g4]| |].
Qed.

Lemma exhaustion_is_reported_witness :
  run_group (F := exact_floats) (RoundRobin 1)
    (Group "Tiger" "A" ["1"; "2"]) (Rng (λ n, n) 0)
    = Done ([Generation_failed "Tiger" "A"], Rng (λ n, n) 1).
Proof.
  refine (proj1 (exhaustion_is_reported (F := exact_floats) (RoundRobin 1) []
                   [Group "Tiger" "B" ["3"; "4"; "5"]]
                   (Group "Tiger" "A" ["1"; "2"])
                   (Rng (λ n, n) 0) (Rng (λ n, n) 0) (Rng (λ n, n) 1)
                   (Rng (λ n, n) 1) [] ["2"; "1"] _ _ _ _)).
  - reflexivity.
  - vm_compute. reflexivity.
  - simpl. lia.
  - vm_compute. reflexivity.
Defined.

End DriverSpec.

Module RaceUtilsFacts.
Import RaceUtils ShuffleSpec OptimizerSpec.

(** ** More on race_utils.py *)




End RaceUtilsFacts.

Module OptimizerEdges.
Import RaceUtils ShuffleSpec OptimizerSpec.





End OptimizerEdges.

Module RunoffDuplicates.
Import RaceUtils HeatsRunoff ShuffleSpec PairingSpec.






End RunoffDuplicates.

Module RunoffValidatorSpec.
Import RaceUtils HeatsRunoff PairingSpec.












End RunoffValidatorSpec.

Module RunoffDriverSpec.
Import RaceUtils HeatsRunoff ShuffleSpec SmallGroupSpec PairingSpec RunoffValidatorSpec.



Section small.
Context (cars : list string) (num_lanes : Z).
Context (Hcars : NoDup cars) (Hmin : 2 ≤ length cars).
Context (Hfit : (Z.of_nat (length cars) ≤ num_lanes)%Z) (Hmax : (num_lanes ≤ 191)%Z).

#[local] Notation df := (_generate_small_group_heats cars (lane_labels num_lanes)).




End small.

(** *** The tables of the pairing packer *)




Section large.
Context (cars : list string) (num_lanes : Z).
Context (Hcars : NoDup cars) (Hmin : (2 ≤ num_lanes)%Z).
Context (Hmore : (num_lanes < Z.of_nat (length cars))%Z) (Hmax : (num_lanes ≤ 191)%Z).


End large.








End RunoffDriverSpec.

Module RunoffFewLanes.
Import RaceUtils HeatsRunoff ShuffleSpec PairingSpec RunoffValidatorSpec.

(** ** The runoff generator on fewer than two lanes *)




Section few_lanes.
Context (cars : list string) (num_lanes : Z).
Context (Hcars : NoDup cars) (Hmin : 2 ≤ length cars).



End few_lanes.




End RunoffFewLanes.

Module PerfectNStructure.
Import RaceUtils HeatsPerfect ShuffleSpec HeatsPerfectSpec OptimizerSpec RebalanceSpec
  OptimizerEdges.

(** ** The tables of the Perfect-N generator *)

(** *** The run pool *)


(** *** One heat *)


(** *** The heats of the packer *)






(** *** Tables without a flaw of structure *)





(** *** The rebalancer keeps the structure *)






(** *** The optimizer keeps the structure *)



Section loop_frame.
Context {score_t : Type} (score : heat_table → M score_t).
Context (lt : score_t → score_t → Prop) `{!RelDecision lt}.


End loop_frame.



(** *** The first heat *)





(** *** The generator *)




Section generator.
Context {F : PyFloat}.


End generator.


(** *** What the generator returns *)








End PerfectNStructure.

Module PerfectDriverSpec.
Import RaceUtils HeatsPerfect ShuffleSpec HeatsPerfectSpec PerfectNStructure.

(** ** The Perfect-N driver, group by group *)





End PerfectDriverSpec.

Module RebalanceEdges.
Import RaceUtils RebalanceSpec.






End RebalanceEdges.

Module Examples.
Import RaceUtils HeatsPerfect HeatsRunoff.

Definition two_by_two : heat_table :=
  [Row 1 "A" "L1"; Row 1 "B" "L2"; Row 2 "A" "L2"; Row 2 "B" "L1"].

Example validate_valid_heats :
  validate_heats two_by_two 2 default_min_cars_per_heat (Some ["A"; "B"]) = true.
Proof. vm_compute. reflexivity. Qed.

Example validate_wrong_race_count :
  validate_heats [Row 1 "A" "L1"; Row 1 "B" "L2"; Row 2 "A" "L2"] 2
    default_min_cars_per_heat (Some ["A"; "B"]) = false.
Proof. vm_compute. reflexivity. Qed.

Example validate_duplicate_car_lane :
  validate_heats [Row 1 "A" "L1"; Row 1 "B" "L2"; Row 2 "A" "L1"; Row 2 "B" "L2"]
    2 default_min_cars_per_heat None = false.
Proof. vm_compute. reflexivity. Qed.

Example validate_missing_car :
  validate_heats [Row 1 "A" "L1"; Row 1 "B" "L2"] 1
    default_min_cars_per_heat (Some ["A"; "B"; "C"]) = false.
Proof. vm_compute. reflexivity. Qed.

Example validate_heat_too_small :
  validate_heats [Row 1 "A" "L1"] 1 2 None = false.
Proof. vm_compute. reflexivity. Qed.

(** Without a lane the pairing packer seats nobody: the frame has no
    column, the validator raises [KeyError] at the first attempt and the
    driver does not catch it. *)
Example runoff_without_lanes_raises :
  generate_round_robin_heats ["1"; "2"] 0 (Rng (λ n, n) 0)
    = Done ([], Rng (λ n, n) 0)
  ∧ process_class_group "Tiger" "A" ["1"; "2"] 0 (Rng (λ n, n) 0)
    = Raise KeyError.
Proof. split; vm_compute; reflexivity. Qed.

(** Two cars on three lanes with two runs each: on this tape the packer
    keeps one heat, and the optimizer raises. *)
Example generate_heats_single_heat :
  generate_heats (F := exact_floats) ["1"; "2"] 3 (Some 2%Z)
    (Rng (λ n, n * 4) 0) = Raise ValueError.
Proof. vm_compute. reflexivity. Qed.

End Examples.
